(** * The cgo shims of beskar's libostree binding

    A shallow embedding of the three C headers under
    [internal/plugins/ostree/pkg/libostree]:

    - [glib_helpers.go.h]: [_g_error_get_message];
    - [options.go.h]: [g_variant_builder_add_variant],
      [g_variant_builder_add_string_tuple];
    - [pull.go.h]: [MakeRefArray], [AppendRef], [FreeRefArray],
      [g_variant_builder_add_refs].

    The C functions run in a state-and-fault monad over a block-structured
    heap.  Calls into libc and GLib are modelled next to them and every such
    call is recorded, in order, in the [calls] log of the world. *)

From Stdlib Require Import ZArith Ascii String.
From stdpp Require Import gmap strings list.

Set Warnings "-register-all".

Local Open Scope Z_scope.

(** ** Pointers and heap objects *)

Definition block := positive.

(** A pointer is null, points [ofs] elements into a heap block, or is the
    address of a string literal of the program text. *)
Inductive ptr :=
| NULL
| Ptr (b : block) (ofs : Z)
| StrLit (s : string).

#[global] Instance ptr_eq_dec : EqDecision ptr.
Proof. solve_decision. Defined.

(** GLib's immutable [GVariant] values, for the types these shims build. *)
Inductive GVariant :=
| GString (s : string)                 (* type "s"  *)
| GArray (elem : string) (items : list (option GVariant))
                                       (* type "a" ++ elem; [None] is a null child *)
| GBoxed (v : GVariant)                (* type "v"  *)
| GDictEntry (k v : GVariant)          (* type "{kv}" *)
| GTuple (items : list GVariant).      (* type "(...)" *)

(** What a live heap block holds. *)
Inductive object :=
| PtrArray (slots : list ptr)                        (* char *[]          *)
| CharArray (chars : string)                         (* char []           *)
| ErrorObj (domain code : Z) (message : ptr)         (* GError            *)
| BuilderObj (elem : string) (children : list GVariant). (* GVariantBuilder *)

(** A [GVariant *] argument: [None] is the null pointer. *)
Definition GVariant_p := option GVariant.

(** One argument of a variadic call. *)
Inductive va_arg :=
| VaPtr (p : ptr)
| VaVariant (v : GVariant_p).

(** Calls that leave this translation unit. *)
Inductive call :=
| Call_calloc (nmemb size : Z)
| Call_free (p : ptr)
| Call_g_variant_new_strv (strv : ptr) (length : Z)
| Call_g_variant_new_variant (value : GVariant_p)
| Call_g_variant_builder_add (builder : ptr) (format : string) (args : list va_arg).

Record world := World {
  heap : gmap block object;
  calls : list call
}.

(** ** Outcomes *)

(** Behaviour the C standard leaves undefined. *)
Inductive undefined :=
| NullDereference
| InvalidPointer (p : ptr)          (* dangling, or not of the accessed type *)
| OutOfBounds (b : block) (index : Z)
| InvalidFree (p : ptr)
| SignedOverflow
| VarArgMismatch.                   (* va_arg read at the wrong type *)

Inductive fault :=
| AssertionFailed (expr : string)   (* g_assert: message, then abort *)
| LibraryError (what : string)      (* g_error: message, then abort *)
| Undefined (u : undefined).

(** A run returns a value, or stops at a fault; either way with the world
    as it is at that point.  [OutOfFuel] is the loop bound of the model
    being reached. *)
Inductive outcome (A : Type) :=
| Ok (a : A) (w : world)
| Fault (f : fault) (w : world)
| OutOfFuel.

Arguments Ok {A} a w.
Arguments Fault {A} f w.
Arguments OutOfFuel {A}.

Definition final_world {A} (o : outcome A) : option world :=
  match o with
  | Ok _ w | Fault _ w => Some w
  | OutOfFuel => None
  end.

Definition M (A : Type) : Type := world -> outcome A.

Definition ret {A} (a : A) : M A := fun w => Ok a w.

Definition bind {A B} (m : M A) (k : A -> M B) : M B :=
  fun w => match m w with
           | Ok a w' => k a w'
           | Fault f w' => Fault f w'
           | OutOfFuel => OutOfFuel
           end.

Definition fail {A} (f : fault) : M A := fun w => Fault f w.

Definition undefined_behaviour {A} (u : undefined) : M A := fail (Undefined u).

#[global] Instance M_ret : MRet M := @ret.
#[global] Instance M_bind : MBind M := fun A B k m => bind m k.

Definition log (c : call) : M unit :=
  fun w => Ok tt {| heap := heap w; calls := calls w ++ [c] |}.

(** ** The C platform (LP64) *)

Definition INT_MAX : Z := 2147483647.
Definition SIZE_MAX : Z := 2 ^ 64 - 1.
Definition sizeof_char_p : Z := 8.

(** Conversion of an [int] argument to [size_t]. *)
Definition to_size_t (z : Z) : Z := z mod (SIZE_MAX + 1).

(** [i++] on an [int]. *)
Definition int_incr (i : Z) : M Z :=
  if decide (i < INT_MAX) then mret (i + 1) else undefined_behaviour SignedOverflow.

(** ** libc

    [calloc] and [free] as the C standard and glibc describe them. *)

(** The memory the system has to give: whether, with these blocks live, a
    request of that many bytes is served. *)
Definition allocator : Type := gmap block object → Z → bool.

(** An allocator that serves the requests of at most [limit] bytes. *)
Definition bounded_allocator (limit : Z) : allocator :=
  λ _ bytes, bytes <=? limit.

(** [calloc(nmemb, size)]: a fresh block of [nmemb * size] zero bytes, or
    the null pointer when the product does not fit [size_t] or the system
    does not serve the request.  The block is only ever read as an array of
    [char *], and all-zero bytes read as null pointers, so the block is
    stored as one null slot per [sizeof_char_p] bytes.  A served request of
    no bytes yields a block of no slots. *)
Definition calloc (serves : allocator) (nmemb size : Z) : M ptr :=
  log (Call_calloc nmemb size);;
  (λ w,
    if decide (nmemb * size <= SIZE_MAX) then
      if serves (heap w) (nmemb * size) then
        let b := fresh (dom (heap w)) in
        let n := Z.to_nat (nmemb * size / sizeof_char_p) in
        Ok (Ptr b 0) {| heap := <[b := PtrArray (replicate n NULL)]> (heap w);
                        calls := calls w |}
      else Ok NULL w
    else Ok NULL w) : M ptr.

(** [free(p)]: a no-op on null, releases the block [p] is the base of, and
    is undefined on anything else. *)
Definition free (p : ptr) : M unit :=
  log (Call_free p);;
  (λ w,
    match p with
    | NULL => Ok tt w
    | Ptr b ofs =>
        if decide (ofs = 0) then
          match heap w !! b with
          | Some _ => Ok tt {| heap := delete b (heap w); calls := calls w |}
          | None => Fault (Undefined (InvalidFree p)) w
          end
        else Fault (Undefined (InvalidFree p)) w
    | StrLit _ => Fault (Undefined (InvalidFree p)) w
    end) : M unit.

(** ** Memory accesses of the C code *)

(** [refs[i]] as an rvalue, for [refs : char **]. *)
Definition load_slot (refs : ptr) (i : Z) : M ptr :=
  fun w =>
    match refs with
    | NULL => Fault (Undefined NullDereference) w
    | StrLit _ => Fault (Undefined (InvalidPointer refs)) w
    | Ptr b ofs =>
        match heap w !! b with
        | Some (PtrArray slots) =>
            if decide (0 <= ofs + i) then
              match slots !! Z.to_nat (ofs + i) with
              | Some p => Ok p w
              | None => Fault (Undefined (OutOfBounds b (ofs + i))) w
              end
            else Fault (Undefined (OutOfBounds b (ofs + i))) w
        | _ => Fault (Undefined (InvalidPointer refs)) w
        end
    end.

(** [refs[i] = p], for [refs : char **]. *)
Definition store_slot (refs : ptr) (i : Z) (p : ptr) : M unit :=
  fun w =>
    match refs with
    | NULL => Fault (Undefined NullDereference) w
    | StrLit _ => Fault (Undefined (InvalidPointer refs)) w
    | Ptr b ofs =>
        match heap w !! b with
        | Some (PtrArray slots) =>
            if decide (0 <= ofs + i < Z.of_nat (length slots)) then
              Ok tt {| heap := <[b := PtrArray (<[Z.to_nat (ofs + i) := p]> slots)]> (heap w);
                       calls := calls w |}
            else Fault (Undefined (OutOfBounds b (ofs + i))) w
        | _ => Fault (Undefined (InvalidPointer refs)) w
        end
    end.

(** ** pull.go.h *)

(** [calloc] of [size] elements of pointer size, the [int] count converted
    to [size_t];
    the result is handed back unexamined.  [serves] is the system the
    program runs on. *)
Definition MakeRefArray (serves : allocator) (size : Z) : M ptr :=
  calloc serves sizeof_char_p (to_size_t size).

Definition AppendRef (refs : ptr) (index : Z) (ref : ptr) : M unit :=
  store_slot refs index ref.

(** The [for] loop of [FreeRefArray], entered with the current value of
    [i]; [fuel] bounds the number of times the condition is evaluated. *)
Fixpoint FreeRefArray_loop (fuel : nat) (refs : ptr) (i : Z) : M unit :=
  match fuel with
  | O => fun _ => OutOfFuel
  | S fuel' =>
      p ← load_slot refs i;
      if decide (p = NULL) then mret tt
      else
        q ← load_slot refs i;
        free q;;
        i' ← int_incr i;
        FreeRefArray_loop fuel' refs i'
  end.

(** Number of slots of the array [refs] points into; the loop evaluates its
    condition at most once more than that. *)
Definition slot_count (w : world) (refs : ptr) : nat :=
  match refs with
  | Ptr b _ => match heap w !! b with
               | Some (PtrArray slots) => length slots
               | _ => O
               end
  | _ => O
  end.

Definition FreeRefArray (refs : ptr) : M unit :=
  fun w => (FreeRefArray_loop (S (slot_count w refs)) refs 0;; free refs) w.

(** ** GLib

    The library functions the shims call, as the GLib reference manual and
    sources describe them.  A [GVariant] is immutable and is modelled by its
    value; reference counts are left out.  A check made with
    [g_return_if_fail] or [g_return_val_if_fail] logs a critical message and
    returns, with the null pointer where a value is expected; [g_error] and
    [g_assert] abort. *)

(** [g_assert (cond)], the condition given with its source text. *)
Definition g_assert (cond : bool) (expr : string) : M unit :=
  if cond then mret tt else fail (AssertionFailed expr).

(** The type string of a value ([g_variant_get_type_string]). *)
Fixpoint type_string (v : GVariant) : string :=
  match v with
  | GString _ => "s"
  | GArray elem _ => "a" +:+ elem
  | GBoxed _ => "v"
  | GDictEntry k x => "{" +:+ type_string k +:+ type_string x +:+ "}"
  | GTuple items =>
      "(" +:+ (fix go (l : list GVariant) : string :=
                 match l with
                 | [] => ""
                 | x :: l' => type_string x +:+ go l'
                 end) items +:+ ")"
  end.

(** The characters of a buffer before its first NUL; [None] when the buffer
    ends before one is found. *)
Fixpoint until_nul (chars : string) : option string :=
  match chars with
  | EmptyString => None
  | String c rest =>
      if decide (c = Ascii.zero) then Some EmptyString
      else String c <$> until_nul rest
  end.

Fixpoint string_drop (n : nat) (chars : string) : string :=
  match n, chars with
  | S n', String _ rest => string_drop n' rest
  | _, _ => chars
  end.

(** A string followed by its terminator, as it lies in memory. *)
Definition nul_terminated (s : string) : string :=
  s +:+ String Ascii.zero EmptyString.

(** Reading the NUL-terminated string a [const char *] points to.  A
    literal is followed by its terminator. *)
Definition read_string (p : ptr) : M string :=
  λ w,
    match p with
    | NULL => Fault (Undefined NullDereference) w
    | StrLit s =>
        match until_nul (nul_terminated s) with
        | Some t => Ok t w
        | None => Fault (Undefined (InvalidPointer p)) w
        end
    | Ptr b ofs =>
        match heap w !! b with
        | Some (CharArray chars) =>
            if decide (0 <= ofs <= Z.of_nat (String.length chars)) then
              match until_nul (string_drop (Z.to_nat ofs) chars) with
              | Some t => Ok t w
              | None => Fault (Undefined (OutOfBounds b (Z.of_nat (String.length chars)))) w
              end
            else Fault (Undefined (OutOfBounds b ofs)) w
        | _ => Fault (Undefined (InvalidPointer p)) w
        end
    end.

(** Where [g_utf8_validate] stands in a string: between characters, or
    inside one, with [more] bytes to come after the next one, which has to
    lie between [lo] and [hi]. *)
Inductive utf8_state :=
| Utf8Start
| Utf8Inside (more : nat) (lo hi : N).

(** One byte of UTF-8: no overlong form, no surrogate, nothing above
    U+10FFFF. *)
Definition utf8_step (st : utf8_state) (c : N) : option utf8_state :=
  match st with
  | Utf8Start =>
      if (c <=? 0x7F)%N then Some Utf8Start
      else if ((0xC2 <=? c) && (c <=? 0xDF))%N then Some (Utf8Inside 0 0x80 0xBF)
      else if (c =? 0xE0)%N then Some (Utf8Inside 1 0xA0 0xBF)
      else if (c =? 0xED)%N then Some (Utf8Inside 1 0x80 0x9F)
      else if ((0xE1 <=? c) && (c <=? 0xEF))%N then Some (Utf8Inside 1 0x80 0xBF)
      else if (c =? 0xF0)%N then Some (Utf8Inside 2 0x90 0xBF)
      else if ((0xF1 <=? c) && (c <=? 0xF3))%N then Some (Utf8Inside 2 0x80 0xBF)
      else if (c =? 0xF4)%N then Some (Utf8Inside 2 0x80 0x8F)
      else None
  | Utf8Inside more lo hi =>
      if ((lo <=? c) && (c <=? hi))%N then
        Some (match more with
              | O => Utf8Start
              | S more' => Utf8Inside more' 0x80 0xBF
              end)
      else None
  end.

Fixpoint utf8_run (st : utf8_state) (s : string) : bool :=
  match s with
  | EmptyString => match st with Utf8Start => true | _ => false end
  | String c rest =>
      match utf8_step st (N_of_ascii c) with
      | Some st' => utf8_run st' rest
      | None => false
      end
  end.

(** [g_utf8_validate (s, -1, NULL)]. *)
Definition g_utf8_validate (s : string) : bool := utf8_run Utf8Start s.

(** [g_variant_new_string]: a string value for valid UTF-8; the null
    pointer for a null argument and for a string that is not valid UTF-8. *)
Definition g_variant_new_string (p : ptr) : M GVariant_p :=
  if decide (p = NULL) then mret None
  else
    s ← read_string p;
    if g_utf8_validate s then mret (Some (GString s)) else mret None.

(** The entries of a null-terminated [char **] before the terminator;
    [None] when there is no terminator. *)
Fixpoint strv_entries (slots : list ptr) : option (list ptr) :=
  match slots with
  | [] => None
  | p :: rest =>
      if decide (p = NULL) then Some []
      else (p ::.) <$> strv_entries rest
  end.

(** The elements an explicit or scanned length selects from [strv]. *)
Definition strv_elements (strv : ptr) (length : Z) : M (list ptr) :=
  λ w,
    match strv with
    | NULL => if decide (length = 0) then Ok [] w else Fault (Undefined NullDereference) w
    | StrLit _ => Fault (Undefined (InvalidPointer strv)) w
    | Ptr b ofs =>
        match heap w !! b with
        | Some (PtrArray slots) =>
            if decide (0 <= ofs <= Z.of_nat (List.length slots)) then
              let tail := drop (Z.to_nat ofs) slots in
              if decide (length < 0) then
                match strv_entries tail with
                | Some ps => Ok ps w
                | None => Fault (Undefined (OutOfBounds b (Z.of_nat (List.length slots)))) w
                end
              else if decide (length <= Z.of_nat (List.length tail)) then
                Ok (take (Z.to_nat length) tail) w
              else Fault (Undefined (OutOfBounds b (Z.of_nat (List.length slots)))) w
            else Fault (Undefined (OutOfBounds b ofs)) w
        | _ => Fault (Undefined (InvalidPointer strv)) w
        end
    end.

(** Running one action per element, left to right. *)
Fixpoint for_each {A B} (f : A → M B) (l : list A) : M (list B) :=
  match l with
  | [] => mret []
  | x :: l' => y ← f x; ys ← for_each f l'; mret (y :: ys)
  end.

(** [g_variant_new_strv (strv, length)]: an array of the strings copied
    from [strv]; a negative [length] means [strv] is null-terminated.  An
    element [g_variant_new_string] refuses is a null child of the array. *)
Definition g_variant_new_strv (strv : ptr) (length : Z) : M GVariant_p :=
  log (Call_g_variant_new_strv strv length);;
  if decide (length = 0 ∨ strv ≠ NULL) then
    ps ← strv_elements strv length;
    strings ← for_each g_variant_new_string ps;
    mret (Some (GArray "s" strings))
  else mret None.

(** [g_variant_new_variant (value)]: [value] boxed as a variant. *)
Definition g_variant_new_variant (value : GVariant_p) : M GVariant_p :=
  log (Call_g_variant_new_variant value);;
  mret (GBoxed <$> value).

(** A container under construction by [g_variant_new_va]: a tuple or a
    dictionary entry, and the children collected so far. *)
Inductive frame :=
| TupleFrame (children : list GVariant)
| EntryFrame (children : list GVariant).

(** A finished child goes to the innermost open container, or is the
    result when none is open. *)
Definition emit (v : GVariant) (stack : list frame) : list frame * option GVariant :=
  match stack with
  | [] => ([], Some v)
  | TupleFrame vs :: stack' => (TupleFrame (vs ++ [v]) :: stack', None)
  | EntryFrame vs :: stack' => (EntryFrame (vs ++ [v]) :: stack', None)
  end.

(** What the format ["s"] makes of its argument: the string, or the text
    GLib puts in the place of one that [g_variant_new_string] refuses. *)
Definition string_or_placeholder (v : GVariant_p) : GVariant :=
  match v with
  | Some x => x
  | None => GString "[Invalid UTF-8]"
  end.

(** The value a format string builds from the variadic arguments, read
    left to right.  Covered here: ["s"], ["@"] before a one-letter type,
    tuples and dictionary entries; any other format string yields no
    value. *)
Fixpoint g_variant_valist_new (format : string) (stack : list frame)
    (result : option GVariant) (args : list va_arg) : M GVariant_p :=
  let mistyped := fail (LibraryError "g_variant_new: expected GVariant of another type") in
  match format, result with
  | EmptyString, Some v =>
      match stack with
      | [] => mret (Some v)
      | _ => mret None
      end
  | EmptyString, None => mret None
  | String _ _, Some _ => mret None
  | String c rest, None =>
      match c with
      | "s"%char =>
          match args with
          | VaPtr p :: args' =>
              v ← g_variant_new_string p;
              let '(stack', result') := emit (string_or_placeholder v) stack in
              g_variant_valist_new rest stack' result' args'
          | _ => undefined_behaviour VarArgMismatch
          end
      | "@"%char =>
          match rest with
          | String (("s" | "v")%char as t) rest' =>
              match args with
              | VaVariant (Some v) :: args' =>
                  if String.eqb (type_string v) (String t EmptyString) then
                    let '(stack', result') := emit v stack in
                    g_variant_valist_new rest' stack' result' args'
                  else mistyped
              | VaVariant None :: _ => mistyped
              | _ => undefined_behaviour VarArgMismatch
              end
          | _ => mret None
          end
      | "("%char => g_variant_valist_new rest (TupleFrame [] :: stack) None args
      | "{"%char => g_variant_valist_new rest (EntryFrame [] :: stack) None args
      | ")"%char =>
          match stack with
          | TupleFrame vs :: stack' =>
              let '(stack'', result') := emit (GTuple vs) stack' in
              g_variant_valist_new rest stack'' result' args
          | _ => mret None
          end
      | "}"%char =>
          match stack with
          | EntryFrame [k; x] :: stack' =>
              let '(stack'', result') := emit (GDictEntry k x) stack' in
              g_variant_valist_new rest stack'' result' args
          | _ => mret None
          end
      | _ => mret None
      end
  end.

(** The shape of a format string, read without arguments: the number of
    children of each open container, and whether a complete value has been
    read.  The result is whether the format is that of one complete
    value. *)
Fixpoint format_shape (format : string) (stack : list (bool * nat))
    (complete : bool) : bool :=
  let close (stack : list (bool * nat)) : list (bool * nat) * bool :=
    match stack with
    | [] => ([], true)
    | (entry, n) :: stack' => ((entry, S n) :: stack', false)
    end in
  match format, complete with
  | EmptyString, true => match stack with [] => true | _ => false end
  | EmptyString, false => false
  | String _ _, true => false
  | String c rest, false =>
      match c with
      | "s"%char => let '(stack', complete') := close stack in
                    format_shape rest stack' complete'
      | "@"%char =>
          match rest with
          | String ("s" | "v")%char rest' =>
              let '(stack', complete') := close stack in
              format_shape rest' stack' complete'
          | _ => false
          end
      | "("%char => format_shape rest ((false, O) :: stack) false
      | "{"%char => format_shape rest ((true, O) :: stack) false
      | ")"%char =>
          match stack with
          | (false, _) :: stack' =>
              let '(stack'', complete') := close stack' in
              format_shape rest stack'' complete'
          | _ => false
          end
      | "}"%char =>
          match stack with
          | (true, 2%nat) :: stack' =>
              let '(stack'', complete') := close stack' in
              format_shape rest stack'' complete'
          | _ => false
          end
      | _ => false
      end
  end.

(** [g_variant_new_va]: the format string is checked before any argument
    is read; one that is not a format yields the null pointer. *)
Definition g_variant_new_va (format : string) (args : list va_arg) : M GVariant_p :=
  if format_shape format [] false then g_variant_valist_new format [] None args
  else mret None.

(** [g_variant_builder_add_value]: the value becomes the last child of the
    builder.  A null builder, a null value and a value that has not the
    element type of the builder are turned down: the call returns and
    nothing is added. *)
Definition g_variant_builder_add_value (builder : ptr) (value : GVariant_p) : M unit :=
  λ w,
    match builder with
    | NULL => Ok tt w
    | StrLit _ => Fault (Undefined (InvalidPointer builder)) w
    | Ptr b ofs =>
        match heap w !! b with
        | Some (BuilderObj elem children) =>
            if decide (ofs = 0) then
              match value with
              | Some v =>
                  if decide (type_string v = elem) then
                    Ok tt {| heap := <[b := BuilderObj elem (children ++ [v])]> (heap w);
                             calls := calls w |}
                  else Ok tt w
              | None => Ok tt w
              end
            else Fault (Undefined (InvalidPointer builder)) w
        | _ => Fault (Undefined (InvalidPointer builder)) w
        end
    end.

(** [g_variant_builder_add (builder, format, ...)]: [g_variant_new] on the
    format and arguments, then [g_variant_builder_add_value]. *)
Definition g_variant_builder_add (builder : ptr) (format : string)
    (args : list va_arg) : M unit :=
  log (Call_g_variant_builder_add builder format args);;
  variant ← g_variant_new_va format args;
  g_variant_builder_add_value builder variant.

(** Reading values back. *)
Definition g_variant_get_string (v : GVariant) : option string :=
  match v with GString s => Some s | _ => None end.

Definition g_variant_get_variant (v : GVariant) : option GVariant :=
  match v with GBoxed x => Some x | _ => None end.

(** [None] also when a child of the array is null. *)
Definition g_variant_get_strv (v : GVariant) : option (list string) :=
  match v with
  | GArray elem items =>
      if decide (elem = "s") then mapM (λ item, item ≫= g_variant_get_string) items
      else None
  | _ => None
  end.

(** An entry read back with the format ["{s@v}"]: key and tagged value. *)
Definition decode_entry (v : GVariant) : option (string * GVariant) :=
  match v with
  | GDictEntry (GString k) (GBoxed x) => Some (k, GBoxed x)
  | _ => None
  end.

(** An entry read back with the format ["(ss)"]: the two strings. *)
Definition decode_string_tuple (v : GVariant) : option (string * string) :=
  match v with
  | GTuple [GString k; GString x] => Some (k, x)
  | _ => None
  end.

(** ** pull.go.h, continued *)

Definition g_variant_builder_add_refs (builder refs : ptr) : M unit :=
  strv ← g_variant_new_strv refs (-1);
  boxed ← g_variant_new_variant strv;
  g_variant_builder_add builder "{s@v}" [VaPtr (StrLit "refs"); VaVariant boxed].

(** ** options.go.h *)

Definition g_variant_builder_add_variant (builder key : ptr) (value : GVariant_p) : M unit :=
  g_variant_builder_add builder "{s@v}" [VaPtr key; VaVariant value].

Definition g_variant_builder_add_string_tuple (builder key value : ptr) : M unit :=
  g_variant_builder_add builder "(ss)" [VaPtr key; VaPtr value].

(** ** glib_helpers.go.h *)

(** [error->message], for [error : GError *]. *)
Definition load_message (error : ptr) : M ptr :=
  λ w,
    match error with
    | NULL => Fault (Undefined NullDereference) w
    | StrLit _ => Fault (Undefined (InvalidPointer error)) w
    | Ptr b ofs =>
        match heap w !! b with
        | Some (ErrorObj _ _ message) =>
            if decide (ofs = 0) then Ok message w
            else Fault (Undefined (InvalidPointer error)) w
        | _ => Fault (Undefined (InvalidPointer error)) w
        end
    end.

Definition _g_error_get_message (error : ptr) : M ptr :=
  g_assert (bool_decide (error ≠ NULL)) "error != NULL";;
  load_message error.

(** ** Callers' use of the ref array *)

(** The base pointer of a heap block. *)
Definition base (b : block) : ptr := Ptr b 0.

(** [AppendRef (refs, i, p)] for the pointers of a list, at consecutive
    indices from [i] on. *)
Fixpoint append_all (refs : ptr) (i : Z) (ps : list ptr) : M unit :=
  match ps with
  | [] => mret tt
  | p :: ps' => AppendRef refs i p;; append_all refs (i + 1) ps'
  end.

(** Allocate [size] slots, append [ps] from index 0, free. *)
Definition ref_array_lifecycle (serves : allocator) (size : Z) (ps : list ptr) : M unit :=
  refs ← MakeRefArray serves size;
  append_all refs 0 ps;;
  FreeRefArray refs.

(** The heap without the blocks of a list. *)
Definition without (bs : list block) (h : gmap block object) : gmap block object :=
  foldl (λ h' b, delete b h') h bs.

(** The world after [free] has been called on the base pointers of [bs]. *)
Definition released (bs : list block) (w : world) : world :=
  {| heap := without bs (heap w);
     calls := calls w ++ (Call_free ∘ base <$> bs) |}.

(** The element offset of a pointer into its block. *)
Definition offset_of (p : ptr) : Z :=
  match p with Ptr _ ofs => ofs | _ => 0 end.

(** A computation that leaves the call log as it found it, whether it
    returns or faults. *)
Definition quiet {A} (m : M A) : Prop :=
  ∀ w, calls <$> final_world (m w) = Some (calls w).

(** What [g_variant_new_string] makes of a string it has read. *)
Definition string_child (s : string) : GVariant_p :=
  if g_utf8_validate s then Some (GString s) else None.

(** What the format ["s"] stores for a string: the string when it is valid
    UTF-8, the placeholder when it is not. *)
Definition as_text (s : string) : string :=
  if g_utf8_validate s then s else "[Invalid UTF-8]".

(** A computation that leaves the whole world as it found it, whether it
    returns or faults. *)
Definition inert {A} (m : M A) : Prop :=
  ∀ w, final_world (m w) = Some w.

(** The least [int]. *)
Definition INT_MIN : Z := - 2147483648.


(** [g_variant_builder_add_string_tuple] for the pairs of a list, in order. *)
Fixpoint add_string_tuples (builder : ptr) (pairs : list (ptr * ptr)) : M unit :=
  match pairs with
  | [] => mret tt
  | (key, value) :: pairs' =>
      g_variant_builder_add_string_tuple builder key value;;
      add_string_tuples builder pairs'
  end.

(** ** A sample world

    Three strings, a builder for each kind of entry, an error object whose
    message is the first string, a ref array with a null slot between its
    entries and a ref array with its null slots at the end. *)

Definition sample_world : world :=
  {| heap := list_to_map
       [(1%positive, CharArray (nul_terminated "main"));
        (2%positive, CharArray (nul_terminated "stable"));
        (3%positive, CharArray (nul_terminated "devel"));
        (4%positive, BuilderObj "{sv}" []);
        (5%positive, BuilderObj "(ss)" []);
        (6%positive, ErrorObj 1 2 (base 1%positive));
        (7%positive, PtrArray [base 1%positive; base 2%positive; NULL; base 3%positive]);
        (8%positive, PtrArray [base 1%positive; base 2%positive; NULL; NULL])];
     calls := [] |}.

(** A system that serves the requests of at most 8 GiB. *)
Definition sample_allocator : allocator := bounded_allocator (2 ^ 33).

(** The name "café" as Latin-1 writes it: its last byte, 0xE9, is not
    UTF-8. *)
Definition latin1_name : string :=
  "caf" +:+ String (ascii_of_N 233) EmptyString.

(** The sample world with that name in block 9 and two more ref arrays:
    the name alone, and the name, a null slot and one more string. *)
Definition sample_world_latin1 : world :=
  {| heap := <[9%positive := CharArray (nul_terminated latin1_name)]>
               (<[10%positive := PtrArray [base 9%positive; NULL]]>
                  (<[11%positive := PtrArray [base 9%positive; NULL; base 3%positive]]>
                     (heap sample_world)));
     calls := [] |}.

(** * Lemmas *)

(** ** The monad *)

Lemma run_bind {A B} (m : M A) (k : A → M B) (w : world) :
  (m ≫= k) w = match m w with
               | Ok a w' => k a w'
               | Fault f w' => Fault f w'
               | OutOfFuel => OutOfFuel
               end.
Proof. reflexivity. Qed.

Lemma run_bind_ok {A B} (m : M A) (k : A → M B) (w w' : world) (a : A) :
  m w = Ok a w' → (m ≫= k) w = k a w'.
Proof. intros E. rewrite run_bind, E. reflexivity. Qed.

Lemma run_bind_fault {A B} (m : M A) (k : A → M B) (w w' : world) (f : fault) :
  m w = Fault f w' → (m ≫= k) w = Fault f w'.
Proof. intros E. rewrite run_bind, E. reflexivity. Qed.

Lemma world_eta (w : world) : {| heap := heap w; calls := calls w |} = w.
Proof. by destruct w. Qed.

(** ** libc and memory accesses *)

Lemma free_base (b : block) (o : object) (w : world) :
  heap w !! b = Some o →
  free (base b) w =
    Ok tt {| heap := delete b (heap w); calls := calls w ++ [Call_free (base b)] |}.
Proof.
  intros Hb. unfold free, base. rewrite run_bind. cbn.
  rewrite Hb. reflexivity.
Qed.

Lemma load_slot_base (b : block) (slots : list ptr) (n : nat) (p : ptr) (w : world) :
  heap w !! b = Some (PtrArray slots) →
  slots !! n = Some p →
  load_slot (base b) (Z.of_nat n) w = Ok p w.
Proof.
  intros Hb Hn. unfold load_slot, base. rewrite Hb, Z.add_0_l.
  rewrite decide_True, Nat2Z.id by lia.
  by rewrite Hn.
Qed.

Lemma load_slot_end (b : block) (slots : list ptr) (w : world) :
  heap w !! b = Some (PtrArray slots) →
  load_slot (base b) (Z.of_nat (length slots)) w =
    Fault (Undefined (OutOfBounds b (Z.of_nat (length slots)))) w.
Proof.
  intros Hb. unfold load_slot, base. rewrite Hb, Z.add_0_l.
  rewrite decide_True, Nat2Z.id by lia.
  by rewrite (lookup_ge_None_2 slots (length slots)) by lia.
Qed.

Lemma without_cons (b : block) (bs : list block) (h : gmap block object) :
  without (b :: bs) h = without bs (delete b h).
Proof. reflexivity. Qed.

Lemma lookup_without_notin (bs : list block) (h : gmap block object) (b : block) :
  b ∉ bs → without bs h !! b = h !! b.
Proof.
  revert h. induction bs as [|b' bs IH]; intros h Hb; [done|].
  apply not_elem_of_cons in Hb as [Hne Hb].
  rewrite without_cons, IH by done. by rewrite lookup_delete_ne.
Qed.

Lemma lookup_without_in (bs : list block) (h : gmap block object) (b : block) :
  b ∈ bs → without bs h !! b = None.
Proof.
  revert h. induction bs as [|b' bs IH]; intros h Hb; [by apply elem_of_nil in Hb|].
  rewrite without_cons.
  destruct (decide (b ∈ bs)) as [Hin|Hnin]; [by apply IH|].
  apply elem_of_cons in Hb as [->|Hb]; [|done].
  rewrite lookup_without_notin by done. apply lookup_delete_eq.
Qed.

(** ** The loop of [FreeRefArray] *)


Lemma int_incr_ok (i : Z) (w : world) :
  i < INT_MAX → int_incr i w = Ok (i + 1) w.
Proof. intros Hi. unfold int_incr. by rewrite decide_True. Qed.

(** One round of the loop on a slot holding the base of a live block. *)
Lemma FreeRefArray_loop_step (fuel : nat) (rb b : block) (slots : list ptr)
    (n : nat) (o : object) (w : world) :
  heap w !! rb = Some (PtrArray slots) →
  slots !! n = Some (base b) →
  heap w !! b = Some o →
  Z.of_nat n < INT_MAX →
  FreeRefArray_loop (S fuel) (base rb) (Z.of_nat n) w =
    FreeRefArray_loop fuel (base rb) (Z.of_nat (S n)) (released [b] w).
Proof.
  intros Hrb Hn Hb Hi. cbn [FreeRefArray_loop].
  rewrite (run_bind_ok _ _ w w (base b)) by eauto using load_slot_base.
  rewrite decide_False by done.
  rewrite (run_bind_ok _ _ w w (base b)) by eauto using load_slot_base.
  rewrite (run_bind_ok _ _ _ _ tt (free_base _ _ _ Hb)).
  rewrite (run_bind_ok _ _ _ _ _ (int_incr_ok _ _ Hi)).
  by replace (Z.of_nat n + 1) with (Z.of_nat (S n)) by lia.
Qed.

Lemma released_app (bs1 bs2 : list block) (w : world) :
  released (bs1 ++ bs2) w = released bs2 (released bs1 w).
Proof.
  unfold released, without. cbn.
  by rewrite foldl_app, fmap_app, app_assoc.
Qed.

(** The loop over a run of slots holding the bases of distinct live blocks:
    it frees them in order and goes on at the slot after the run. *)
Lemma FreeRefArray_loop_run (bs : list block) :
  ∀ (fuel : nat) (rb : block) (head tail : list ptr) (w : world),
    heap w !! rb = Some (PtrArray (head ++ (base <$> bs) ++ tail)) →
    NoDup bs →
    rb ∉ bs →
    (∀ b, b ∈ bs → is_Some (heap w !! b)) →
    Z.of_nat (length head + length bs) ≤ INT_MAX →
    FreeRefArray_loop (length bs + fuel) (base rb) (Z.of_nat (length head)) w =
      FreeRefArray_loop fuel (base rb) (Z.of_nat (length head + length bs))
        (released bs w).
Proof.
  induction bs as [|b bs IH]; intros fuel rb head tail w Hrb Hnd Hnin Hlive Hmax.
  - cbn. rewrite Nat.add_0_r. unfold released, without. cbn.
    by rewrite app_nil_r, world_eta.
  - apply NoDup_cons in Hnd as [Hb Hnd].
    apply not_elem_of_cons in Hnin as [Hne Hnin].
    destruct (Hlive b) as [o Ho]; [by left|].
    cbn [length] in *. cbn [Nat.add].
    rewrite (FreeRefArray_loop_step _ rb b _ (length head) o w Hrb); [|..|done|lia].
    2:{ rewrite lookup_app_r by lia. by rewrite Nat.sub_diag. }
    change (b :: bs) with ([b] ++ bs). rewrite released_app.
    replace (S (length head)) with (length (head ++ [base b]))
      by (rewrite length_app; cbn; lia).
    replace (length head + S (length bs))%nat
      with (length (head ++ [base b]) + length bs)%nat
      by (rewrite length_app; cbn; lia).
    apply (IH fuel rb (head ++ [base b]) tail); [|done|done|..].
    + cbn. rewrite lookup_delete_ne by done.
      by rewrite <-app_assoc.
    + intros b' Hb'. cbn. rewrite lookup_delete_ne by set_solver.
      apply Hlive. by right.
    + rewrite length_app. cbn. lia.
Qed.

(** A null slot ends the loop. *)
Lemma FreeRefArray_loop_null (fuel : nat) (rb : block) (slots : list ptr)
    (n : nat) (w : world) :
  heap w !! rb = Some (PtrArray slots) →
  slots !! n = Some NULL →
  FreeRefArray_loop (S fuel) (base rb) (Z.of_nat n) w = Ok tt w.
Proof.
  intros Hrb Hn. cbn [FreeRefArray_loop].
  by rewrite (run_bind_ok _ _ w w NULL) by eauto using load_slot_base.
Qed.

(** Reading the slot after the last one is out of bounds. *)
Lemma FreeRefArray_loop_end (fuel : nat) (rb : block) (slots : list ptr) (w : world) :
  heap w !! rb = Some (PtrArray slots) →
  FreeRefArray_loop (S fuel) (base rb) (Z.of_nat (length slots)) w =
    Fault (Undefined (OutOfBounds rb (Z.of_nat (length slots)))) w.
Proof.
  intros Hrb. cbn [FreeRefArray_loop].
  by rewrite (run_bind_fault _ _ w w _ (load_slot_end _ _ _ Hrb)).
Qed.

Lemma released_lookup_notin (bs : list block) (w : world) (b : block) :
  b ∉ bs → heap (released bs w) !! b = heap w !! b.
Proof. apply lookup_without_notin. Qed.

(** [FreeRefArray] on an array that starts with the bases of distinct live
    blocks followed by a null slot: whatever the slots after it hold, the
    blocks and then the array are freed, in this order. *)
Lemma FreeRefArray_terminated (rb : block) (bs : list block) (tail : list ptr)
    (w : world) :
  heap w !! rb = Some (PtrArray ((base <$> bs) ++ NULL :: tail)) →
  NoDup bs →
  rb ∉ bs →
  (∀ b, b ∈ bs → is_Some (heap w !! b)) →
  Z.of_nat (length bs) ≤ INT_MAX →
  FreeRefArray (base rb) w = Ok tt (released (bs ++ [rb]) w).
Proof.
  intros Hrb Hnd Hnin Hlive Hmax.
  unfold FreeRefArray. rewrite run_bind.
  unfold slot_count, base. rewrite Hrb. fold (base rb).
  rewrite length_app, length_fmap. cbn [length].
  replace (S (length bs + S (length tail)))
    with (length bs + S (S (length tail)))%nat by lia.
  rewrite (FreeRefArray_loop_run bs _ rb [] (NULL :: tail) w) by done.
  cbn [length Nat.add].
  assert (heap (released bs w) !! rb
          = Some (PtrArray ((base <$> bs) ++ NULL :: tail))) as Hrb'
    by (by rewrite released_lookup_notin).
  rewrite (FreeRefArray_loop_null _ rb _ (length bs) _ Hrb').
  2:{ rewrite lookup_app_r by (by rewrite length_fmap).
      by rewrite length_fmap, Nat.sub_diag. }
  rewrite (free_base _ _ _ Hrb'). by rewrite released_app.
Qed.

(** [FreeRefArray] on an array whose every slot holds the base of a live
    block: the blocks are freed and the read of the slot after the last one
    is out of bounds. *)
Lemma FreeRefArray_unterminated (rb : block) (bs : list block) (w : world) :
  heap w !! rb = Some (PtrArray (base <$> bs)) →
  NoDup bs →
  rb ∉ bs →
  (∀ b, b ∈ bs → is_Some (heap w !! b)) →
  Z.of_nat (length bs) ≤ INT_MAX →
  FreeRefArray (base rb) w =
    Fault (Undefined (OutOfBounds rb (Z.of_nat (length bs)))) (released bs w).
Proof.
  intros Hrb Hnd Hnin Hlive Hmax.
  unfold FreeRefArray. rewrite run_bind.
  unfold slot_count, base. rewrite Hrb. fold (base rb).
  rewrite length_fmap.
  replace (S (length bs)) with (length bs + 1)%nat by lia.
  rewrite (FreeRefArray_loop_run bs _ rb [] [] w); [|by rewrite app_nil_r|done..].
  cbn [length Nat.add].
  assert (heap (released bs w) !! rb = Some (PtrArray (base <$> bs))) as Hrb'
    by (by rewrite released_lookup_notin).
  pose proof (FreeRefArray_loop_end 0 rb _ _ Hrb') as Hend.
  rewrite length_fmap in Hend. by rewrite Hend.
Qed.

(** ** [MakeRefArray] and [AppendRef] *)

Lemma to_size_t_int (n : Z) : 0 ≤ n ≤ INT_MAX → to_size_t n = n.
Proof. intros Hn. unfold to_size_t. apply Z.mod_small. unfold INT_MAX, SIZE_MAX in *. lia. Qed.

Lemma MakeRefArray_ok (serves : allocator) (n : Z) (w : world) :
  0 ≤ n ≤ INT_MAX →
  serves (heap w) (sizeof_char_p * n) = true →
  MakeRefArray serves n w =
    Ok (base (fresh (dom (heap w))))
       {| heap := <[fresh (dom (heap w)) := PtrArray (replicate (Z.to_nat n) NULL)]> (heap w);
          calls := calls w ++ [Call_calloc sizeof_char_p n] |}.
Proof.
  intros Hn Hserved. unfold MakeRefArray, calloc. rewrite to_size_t_int by done.
  rewrite run_bind. cbn [log heap calls].
  rewrite decide_True by (unfold INT_MAX, SIZE_MAX, sizeof_char_p in *; lia).
  rewrite Hserved.
  unfold base. do 4 f_equal.
  unfold sizeof_char_p. by rewrite Z.mul_comm, Z.div_mul.
Qed.

Lemma fresh_block_free (w : world) : heap w !! fresh (dom (heap w)) = None.
Proof. apply not_elem_of_dom, is_fresh. Qed.

Lemma AppendRef_ok (rb : block) (slots : list ptr) (n : nat) (p : ptr) (w : world) :
  heap w !! rb = Some (PtrArray slots) →
  (n < length slots)%nat →
  AppendRef (base rb) (Z.of_nat n) p w =
    Ok tt {| heap := <[rb := PtrArray (<[n := p]> slots)]> (heap w);
             calls := calls w |}.
Proof.
  intros Hrb Hn. unfold AppendRef, store_slot, base. rewrite Hrb, Z.add_0_l.
  rewrite decide_True by lia. by rewrite Nat2Z.id.
Qed.

(** Appending a list of pointers overwrites as many consecutive slots. *)
Lemma append_all_run (ps : list ptr) :
  ∀ (rb : block) (head olds tail : list ptr) (w : world),
    heap w !! rb = Some (PtrArray (head ++ olds ++ tail)) →
    length olds = length ps →
    append_all (base rb) (Z.of_nat (length head)) ps w =
      Ok tt {| heap := <[rb := PtrArray (head ++ ps ++ tail)]> (heap w);
               calls := calls w |}.
Proof.
  induction ps as [|p ps IH]; intros rb head olds tail w Hrb Hlen.
  - destruct olds; [|done]. cbn.
    rewrite insert_id by done. by rewrite world_eta.
  - destruct olds as [|o olds]; [done|]. cbn [append_all].
    rewrite (run_bind_ok _ _ _ _ tt (AppendRef_ok _ _ (length head) p _ Hrb ltac:(rewrite length_app; cbn; lia))).
    replace (Z.of_nat (length head) + 1) with (Z.of_nat (length (head ++ [p])))
      by (rewrite length_app; cbn; lia).
    rewrite (IH rb (head ++ [p]) olds tail).
    + cbn. rewrite insert_insert_eq. by rewrite <-app_assoc.
    + cbn. rewrite lookup_insert_eq. do 2 f_equal.
      replace (length head) with (length head + 0)%nat at 1 by lia.
      rewrite insert_app_r. cbn. by rewrite <-app_assoc.
    + cbn in Hlen. lia.
Qed.

(** ** GLib *)

(** Reading a string does not depend on the call log. *)
Lemma read_string_heap (p : ptr) (s : string) (w w' : world) :
  heap w' = heap w →
  read_string p w = Ok s w →
  read_string p w' = Ok s w'.
Proof.
  intros Hh. unfold read_string. rewrite Hh.
  destruct p as [|b ofs|lit]; [done|..].
  - destruct (heap w !! b) as [[]|]; try done.
    case_decide; [|done]. destruct (until_nul _); [|done]. by intros [= ->].
  - destruct (until_nul _); [|done]. by intros [= ->].
Qed.

Lemma read_string_not_null (p : ptr) (s : string) (w w' : world) :
  read_string p w = Ok s w' → p ≠ NULL.
Proof. by intros H ->. Qed.

Lemma g_variant_new_string_read (p : ptr) (s : string) (w : world) :
  read_string p w = Ok s w →
  g_variant_new_string p w = Ok (string_child s) w.
Proof.
  intros Hs. unfold g_variant_new_string, string_child.
  rewrite decide_False by eauto using read_string_not_null.
  rewrite (run_bind_ok _ _ _ _ _ Hs). by destruct (g_utf8_validate s).
Qed.

Lemma string_or_placeholder_child (s : string) :
  string_or_placeholder (string_child s) = GString (as_text s).
Proof. unfold string_child, as_text. by destruct (g_utf8_validate s). Qed.

Lemma as_text_valid (s : string) : g_utf8_validate s = true → as_text s = s.
Proof. unfold as_text. by intros ->. Qed.

Lemma read_string_refs (w : world) : read_string (StrLit "refs") w = Ok "refs" w.
Proof. reflexivity. Qed.

Lemma strv_entries_prefix (ps tail : list ptr) :
  Forall (λ p, p ≠ NULL) ps →
  strv_entries (ps ++ NULL :: tail) = Some ps.
Proof.
  induction 1 as [|p ps Hp _ IH]; cbn.
  - by rewrite decide_True.
  - rewrite decide_False by done. by rewrite IH.
Qed.

Lemma strv_elements_terminated (rb : block) (ps tail : list ptr) (w : world) :
  heap w !! rb = Some (PtrArray (ps ++ NULL :: tail)) →
  Forall (λ p, p ≠ NULL) ps →
  strv_elements (base rb) (-1) w = Ok ps w.
Proof.
  intros Hrb Hps. unfold strv_elements, base. rewrite Hrb.
  rewrite decide_True by lia.
  rewrite Z2Nat.inj_0, drop_0, decide_True by lia.
  by rewrite strv_entries_prefix.
Qed.

Lemma for_each_new_string (ps : list ptr) (ss : list string) (w : world) :
  Forall2 (λ p s, read_string p w = Ok s w) ps ss →
  for_each g_variant_new_string ps w = Ok (string_child <$> ss) w.
Proof.
  induction 1 as [|p s ps ss Hp _ IH]; [done|].
  cbn [for_each].
  rewrite (run_bind_ok _ _ _ _ _ (g_variant_new_string_read _ _ _ Hp)).
  by rewrite (run_bind_ok _ _ _ _ _ IH).
Qed.

Lemma g_variant_new_strv_terminated (rb : block) (ps tail : list ptr)
    (ss : list string) (w : world) :
  heap w !! rb = Some (PtrArray (ps ++ NULL :: tail)) →
  Forall2 (λ p s, read_string p w = Ok s w) ps ss →
  g_variant_new_strv (base rb) (-1) w =
    Ok (Some (GArray "s" (string_child <$> ss)))
       {| heap := heap w;
          calls := calls w ++ [Call_g_variant_new_strv (base rb) (-1)] |}.
Proof.
  intros Hrb Hss. unfold g_variant_new_strv.
  rewrite run_bind. cbn [log].
  rewrite decide_True by (by right).
  set (w' := {| heap := heap w; calls := _ |}).
  assert (Forall (λ p, p ≠ NULL) ps) as Hnn.
  { eapply Forall2_Forall_l; [done|].
    apply Forall_true. intros p s. apply read_string_not_null. }
  rewrite (run_bind_ok _ _ w' w' ps)
    by (by apply (strv_elements_terminated rb ps tail)).
  rewrite (run_bind_ok _ _ w' w' (string_child <$> ss)); [done|].
  apply for_each_new_string.
  eapply Forall2_impl; [done|]. intros p s. by apply read_string_heap.
Qed.

Lemma g_variant_builder_add_unfold (builder : ptr) (format : string)
    (args : list va_arg) (w : world) :
  g_variant_builder_add builder format args w =
    (variant ← g_variant_new_va format args;
     g_variant_builder_add_value builder variant)
      {| heap := heap w;
         calls := calls w ++ [Call_g_variant_builder_add builder format args] |}.
Proof. reflexivity. Qed.

Lemma g_variant_new_variant_ok (value : GVariant_p) (w : world) :
  g_variant_new_variant value w =
    Ok (GBoxed <$> value)
       {| heap := heap w; calls := calls w ++ [Call_g_variant_new_variant value] |}.
Proof. reflexivity. Qed.

Lemma string_child_valid (s : string) :
  g_utf8_validate s = true → string_child s = Some (GString s).
Proof. unfold string_child. by intros ->. Qed.

Lemma string_child_invalid (s : string) :
  g_utf8_validate s = false → string_child s = None.
Proof. unfold string_child. by intros ->. Qed.

(** An array of valid strings reads back as the strings. *)
Lemma g_variant_get_strv_strings (ss : list string) :
  Forall (λ s, g_utf8_validate s = true) ss →
  g_variant_get_strv (GArray "s" (string_child <$> ss)) = Some ss.
Proof.
  intros Hvalid. unfold g_variant_get_strv. rewrite decide_True by done.
  induction Hvalid as [|s ss Hs _ IH]; [done|].
  cbn -[g_utf8_validate]. cbn -[g_utf8_validate] in IH.
  rewrite (string_child_valid s Hs). cbn -[g_utf8_validate]. by rewrite IH.
Qed.

(** An array with a string that is not valid does not read back. *)
Lemma g_variant_get_strv_invalid (ss : list string) (s : string) :
  s ∈ ss →
  g_utf8_validate s = false →
  g_variant_get_strv (GArray "s" (string_child <$> ss)) = None.
Proof.
  intros Hin Hs. unfold g_variant_get_strv. rewrite decide_True by done.
  induction ss as [|s' ss IH]; [by apply elem_of_nil in Hin|].
  apply elem_of_cons in Hin as [<-|Hin].
  - cbn -[g_utf8_validate]. by rewrite (string_child_invalid s Hs).
  - cbn -[g_utf8_validate]. cbn -[g_utf8_validate] in IH. rewrite IH by done.
    by destruct (string_child s' ≫= g_variant_get_string).
Qed.

(** The two formats of the shims. *)
Lemma g_variant_new_va_entry (key : ptr) (k : string) (x : GVariant)
    (rest : list va_arg) (w : world) :
  read_string key w = Ok k w →
  g_variant_new_va "{s@v}" (VaPtr key :: VaVariant (Some (GBoxed x)) :: rest) w =
    Ok (Some (GDictEntry (GString (as_text k)) (GBoxed x))) w.
Proof.
  intros Hk. unfold g_variant_new_va. cbn.
  rewrite (run_bind_ok _ _ _ _ _ (g_variant_new_string_read _ _ _ Hk)).
  by rewrite string_or_placeholder_child.
Qed.

Lemma g_variant_new_va_string_tuple (key value : ptr) (k v : string)
    (rest : list va_arg) (w : world) :
  read_string key w = Ok k w →
  read_string value w = Ok v w →
  g_variant_new_va "(ss)" (VaPtr key :: VaPtr value :: rest) w =
    Ok (Some (GTuple [GString (as_text k); GString (as_text v)])) w.
Proof.
  intros Hk Hv. unfold g_variant_new_va. cbn.
  rewrite (run_bind_ok _ _ _ _ _ (g_variant_new_string_read _ _ _ Hk)).
  rewrite string_or_placeholder_child. cbn.
  rewrite (run_bind_ok _ _ _ _ _ (g_variant_new_string_read _ _ _ Hv)).
  by rewrite string_or_placeholder_child.
Qed.

Lemma g_variant_builder_add_value_ok (bb : block) (elem : string)
    (children : list GVariant) (value : GVariant) (w : world) :
  heap w !! bb = Some (BuilderObj elem children) →
  type_string value = elem →
  g_variant_builder_add_value (base bb) (Some value) w =
    Ok tt {| heap := <[bb := BuilderObj elem (children ++ [value])]> (heap w);
             calls := calls w |}.
Proof.
  intros Hbb Hty. unfold g_variant_builder_add_value, base. rewrite Hbb.
  rewrite decide_True by done. by rewrite decide_True.
Qed.

(** ** Calls recorded by the library model *)

Lemma quiet_ret {A} (a : A) : quiet (mret a : M A).
Proof. by intros w. Qed.

Lemma quiet_fail {A} (f : fault) : quiet (fail f : M A).
Proof. by intros w. Qed.

Lemma quiet_bind {A B} (m : M A) (k : A → M B) :
  quiet m → (∀ a, quiet (k a)) → quiet (m ≫= k).
Proof.
  intros Hm Hk w. rewrite run_bind. specialize (Hm w).
  destruct (m w) as [a w'|f w'|]; cbn in *; [|done..].
  rewrite Hk. congruence.
Qed.

Lemma quiet_read_string (p : ptr) : quiet (read_string p).
Proof.
  intros w. unfold read_string.
  destruct p as [|b ofs|lit]; [done|..].
  - destruct (heap w !! b) as [[]|]; try done.
    case_decide; [|done]. by destruct (until_nul _).
  - by destruct (until_nul _).
Qed.

Lemma quiet_g_variant_new_string (p : ptr) : quiet (g_variant_new_string p).
Proof.
  unfold g_variant_new_string. case_decide; [apply quiet_ret|].
  apply quiet_bind; [apply quiet_read_string|]. intros s.
  destruct (g_utf8_validate s); apply quiet_ret.
Qed.

Lemma quiet_g_variant_builder_add_value (builder : ptr) (value : GVariant_p) :
  quiet (g_variant_builder_add_value builder value).
Proof.
  intros w. unfold g_variant_builder_add_value.
  destruct builder as [|b ofs|lit]; [done| |done].
  destruct (heap w !! b) as [[]|]; try done.
  case_decide; [|done]. destruct value; [|done]. by case_decide.
Qed.

(** Case analysis on whatever a computation branches on. *)
Ltac quiet_cases :=
  repeat first
    [ apply quiet_fail
    | apply quiet_ret
    | apply quiet_g_variant_new_string
    | apply quiet_bind; [|intros ?]
    | match goal with
      | H : ∀ stack result args, quiet (g_variant_valist_new ?f stack result args)
        |- quiet (g_variant_valist_new ?f _ _ _) => apply H
      | |- quiet (match ?x with _ => _ end) => destruct x
      | |- quiet (if ?x then _ else _) => destruct x
      end ].

(** One character of the format, given the rest of it is quiet. *)
Lemma quiet_g_variant_valist_new_step (c : ascii) (rest : string) :
  (∀ stack result args, quiet (g_variant_valist_new rest stack result args)) →
  (∀ t rest', rest = String t rest' →
     ∀ stack result args, quiet (g_variant_valist_new rest' stack result args)) →
  ∀ stack result args, quiet (g_variant_valist_new (String c rest) stack result args).
Proof.
  intros Hrest Hrest' stack result args.
  destruct result as [v|]; [apply quiet_ret|].
  destruct c as [[] [] [] [] [] [] [] []];
    try (cbn [g_variant_valist_new]; quiet_cases; fail).
  destruct rest as [|t rest']; [apply quiet_ret|].
  specialize (Hrest' t rest' eq_refl).
  destruct t as [[] [] [] [] [] [] [] []]; cbn [g_variant_valist_new]; quiet_cases.
Qed.

Lemma quiet_g_variant_valist_new (format : string) :
  ∀ stack result args, quiet (g_variant_valist_new format stack result args).
Proof.
  cut ((∀ stack result args, quiet (g_variant_valist_new format stack result args))
       ∧ (∀ c stack result args,
            quiet (g_variant_valist_new (String c format) stack result args))).
  { by intros [H _]. }
  induction format as [|c' format [IH1 IH2]].
  - assert (∀ stack result args, quiet (g_variant_valist_new "" stack result args)) as H0.
    { intros stack [v|] args; [|apply quiet_ret].
      destruct stack; apply quiet_ret. }
    split; [done|]. intros c. by apply quiet_g_variant_valist_new_step.
  - split; [apply IH2|]. intros c.
    apply quiet_g_variant_valist_new_step; [apply IH2|].
    by intros t rest' [= _ <-].
Qed.

Lemma quiet_g_variant_new_va (format : string) (args : list va_arg) :
  quiet (g_variant_new_va format args).
Proof.
  unfold g_variant_new_va.
  destruct (format_shape format [] false);
    [apply quiet_g_variant_valist_new|apply quiet_ret].
Qed.

(** Whatever its arguments, [g_variant_builder_add] records itself and
    nothing else. *)
Lemma g_variant_builder_add_calls (builder : ptr) (format : string)
    (args : list va_arg) (w : world) :
  calls <$> final_world (g_variant_builder_add builder format args w) =
    Some (calls w ++ [Call_g_variant_builder_add builder format args]).
Proof.
  unfold g_variant_builder_add. rewrite run_bind. cbn [log].
  set (w' := {| heap := heap w; calls := _ |}).
  change (calls w ++ _) with (calls w').
  apply (quiet_bind (g_variant_new_va format args)).
  - apply quiet_g_variant_new_va.
  - intros v. apply quiet_g_variant_builder_add_value.
Qed.

(** ** The fuel of [FreeRefArray] is enough *)


Lemma load_slot_inv (refs p : ptr) (i : Z) (w w' : world) :
  load_slot refs i w = Ok p w' →
  w' = w ∧ 0 ≤ offset_of refs + i < Z.of_nat (slot_count w refs).
Proof.
  unfold load_slot, slot_count, offset_of.
  destruct refs as [|b ofs|lit]; [done| |done].
  destruct (heap w !! b) as [[slots| | |]|]; try done.
  case_decide; [|done].
  destruct (slots !! Z.to_nat (ofs + i)) as [q|] eqn:Hq; [|done].
  intros [= -> ->]. apply lookup_lt_Some in Hq. split; [done|lia].
Qed.

Lemma free_inv (p refs : ptr) (w w' : world) :
  free p w = Ok tt w' → (slot_count w' refs ≤ slot_count w refs)%nat.
Proof.
  unfold free. rewrite run_bind. cbn [log].
  destruct p as [|b ofs|lit]; [by intros [= <-]| |done].
  case_decide; [|done]. cbn [heap].
  destruct (heap w !! b) as [o|] eqn:Hb; [|done].
  intros [= <-]. unfold slot_count. cbn [heap].
  destruct refs as [|rb rofs|rlit]; [done| |done].
  destruct (decide (rb = b)) as [->|Hne].
  - rewrite lookup_delete_eq. lia.
  - by rewrite lookup_delete_ne.
Qed.

Lemma FreeRefArray_loop_fuel (fuel : nat) :
  ∀ (refs : ptr) (i : Z) (w : world),
    (0 < fuel)%nat →
    Z.of_nat (slot_count w refs) - (offset_of refs + i) < Z.of_nat fuel →
    FreeRefArray_loop fuel refs i w ≠ OutOfFuel.
Proof.
  induction fuel as [|fuel IH]; intros refs i w Hpos Hfuel; [lia|].
  cbn [FreeRefArray_loop]. rewrite run_bind.
  destruct (load_slot refs i w) as [p w1|f w1|] eqn:Hload; [|done|].
  2:{ unfold load_slot in Hload. repeat case_match; done. }
  apply load_slot_inv in Hload as [-> Hi].
  case_decide; [done|].
  rewrite run_bind.
  destruct (load_slot refs i w) as [q w1|f w1|] eqn:Hload; [|done|].
  2:{ unfold load_slot in Hload. repeat case_match; done. }
  apply load_slot_inv in Hload as [-> _].
  rewrite run_bind.
  destruct (free q w) as [[] w2|f w2|] eqn:Hfree; [|done|].
  2:{ unfold free in Hfree. rewrite run_bind in Hfree. cbn [log] in Hfree.
      repeat case_match; done. }
  apply (free_inv q refs) in Hfree.
  rewrite run_bind. unfold int_incr.
  case_decide; [|done]. cbn.
  apply IH; lia.
Qed.

(** [FreeRefArray] always comes to an end: the loop bound it is run with is
    never reached. *)
Lemma FreeRefArray_total (refs : ptr) (w : world) :
  FreeRefArray refs w ≠ OutOfFuel.
Proof.
  unfold FreeRefArray. rewrite run_bind.
  pose proof (FreeRefArray_loop_fuel (S (slot_count w refs)) refs 0 w) as Hloop.
  destruct (FreeRefArray_loop _ refs 0 w) as [[] w1|f w1|] eqn:Hl; [|done|].
  - unfold free. rewrite run_bind. cbn [log]. repeat case_match; done.
  - destruct Hloop; [lia| |done].
    unfold load_slot in Hl.
    destruct refs as [|b ofs|lit]; cbn in *; try lia.
    destruct (decide (0 ≤ ofs)); [lia|].
    exfalso. revert Hl. cbn [FreeRefArray_loop]. rewrite run_bind.
    unfold load_slot. rewrite Z.add_0_r.
    destruct (heap w !! b) as [[]|]; try done.
    by rewrite decide_False.
Qed.

(** * The properties of the shims *)

(** ** Ref-array lifecycle *)

(** The array after [MakeRefArray n] and [append_all] of a list of at most
    [n] pointers. *)
Lemma make_and_append (serves : allocator) (w : world) (n : Z) (ps : list ptr) :
  0 ≤ n ≤ INT_MAX →
  serves (heap w) (sizeof_char_p * n) = true →
  Z.of_nat (length ps) ≤ n →
  let rb := fresh (dom (heap w)) in
  (refs ← MakeRefArray serves n; append_all refs 0 ps;; mret refs) w =
    Ok (base rb)
       {| heap := <[rb := PtrArray (ps ++ replicate (Z.to_nat n - length ps) NULL)]> (heap w);
          calls := calls w ++ [Call_calloc sizeof_char_p n] |}.
Proof.
  intros Hn Hserved Hlen rb.
  rewrite (run_bind_ok _ _ _ _ _ (MakeRefArray_ok serves n w Hn Hserved)). fold rb.
  set (w1 := {| heap := _; calls := _ |}).
  assert (heap w1 !! rb
          = Some (PtrArray ([] ++ replicate (length ps) NULL
                               ++ replicate (Z.to_nat n - length ps) NULL))) as Hrb.
  { unfold w1. cbn. rewrite lookup_insert_eq. do 2 f_equal.
    rewrite <-replicate_add. f_equal. lia. }
  rewrite (run_bind_ok _ _ _ _ tt
             (append_all_run ps rb [] _ _ w1 Hrb ltac:(by rewrite length_replicate))).
  cbn. by rewrite insert_insert_eq.
Qed.

Lemma without_insert (bs : list block) (b : block) (o : object)
    (h : gmap block object) :
  b ∉ bs → without bs (<[b := o]> h) = <[b := o]> (without bs h).
Proof.
  revert h. induction bs as [|b' bs IH]; intros h Hb; [done|].
  apply not_elem_of_cons in Hb as [Hne Hb].
  rewrite !without_cons, <-IH by done. by rewrite delete_insert_ne.
Qed.

Lemma without_snoc (bs : list block) (b : block) (h : gmap block object) :
  without (bs ++ [b]) h = delete b (without bs h).
Proof. unfold without. by rewrite foldl_app. Qed.

Lemma fresh_not_live (w : world) (bs : list block) :
  (∀ b, b ∈ bs → is_Some (heap w !! b)) → fresh (dom (heap w)) ∉ bs.
Proof.
  intros Hlive Hin. apply Hlive in Hin as [o Ho].
  by rewrite fresh_block_free in Ho.
Qed.

(** C1. For every [N ≥ 1] and every [K ≤ N - 1]: allocate [N] slots with
    [MakeRefArray] (the system serving the request), append [K] pointers
    (the bases of distinct live heap blocks) at indices [0 .. K-1] with
    [AppendRef], call [FreeRefArray].  The run returns; [free] is called on
    exactly the [K] pointers, in order, and then on the array; the heap is
    left as it was before the allocation, less the [K] blocks.  With
    [K = 0] only the array is freed and the heap is as before. *)
Theorem ref_array_lifecycle_frees_populated (serves : allocator) (w : world)
    (N : Z) (bs : list block) :
  1 ≤ N ≤ INT_MAX →
  serves (heap w) (sizeof_char_p * N) = true →
  Z.of_nat (length bs) ≤ N - 1 →
  NoDup bs →
  (∀ b, b ∈ bs → is_Some (heap w !! b)) →
  let refs := base (fresh (dom (heap w))) in
  ref_array_lifecycle serves N (base <$> bs) w =
    Ok tt {| heap := without bs (heap w);
             calls := calls w ++ [Call_calloc sizeof_char_p N]
                        ++ (Call_free ∘ base <$> bs) ++ [Call_free refs] |}
  ∧ ref_array_lifecycle serves N [] w =
    Ok tt {| heap := heap w;
             calls := calls w ++ [Call_calloc sizeof_char_p N; Call_free refs] |}.
Proof.
  intros HN Hserved HK Hnd Hlive refs.
  assert (∀ bs', Z.of_nat (length bs') ≤ N - 1 → NoDup bs' →
            (∀ b, b ∈ bs' → is_Some (heap w !! b)) →
            ref_array_lifecycle serves N (base <$> bs') w =
              Ok tt {| heap := without bs' (heap w);
                       calls := calls w ++ [Call_calloc sizeof_char_p N]
                                  ++ (Call_free ∘ base <$> bs') ++ [Call_free refs] |})
    as Hrun.
  { clear bs HK Hnd Hlive. intros bs HK Hnd Hlive.
    pose proof (make_and_append serves w N (base <$> bs) ltac:(lia) Hserved
                  ltac:(rewrite length_fmap; lia)) as Hfill.
    cbn zeta in Hfill. rewrite length_fmap in Hfill.
    unfold ref_array_lifecycle.
    rewrite run_bind in Hfill. rewrite run_bind.
    destruct (MakeRefArray serves N w) as [r w1|f w1|]; [|done..].
    rewrite run_bind in Hfill. rewrite run_bind.
    destruct (append_all r 0 (base <$> bs) w1) as [[] w2|f w2|]; [|done..].
    injection Hfill as -> ->.
    set (rb := fresh (dom (heap w))).
    destruct (Z.to_nat N - length bs)%nat as [|m] eqn:Hm; [lia|].
    rewrite (FreeRefArray_terminated rb bs (replicate m NULL)); cbn [heap].
    - unfold released. cbn [heap calls]. f_equal. f_equal.
      + rewrite without_snoc, without_insert by (by apply fresh_not_live).
        rewrite delete_insert_eq.
        apply delete_id. rewrite lookup_without_notin by (by apply fresh_not_live).
        apply fresh_block_free.
      + rewrite fmap_app. cbn. by rewrite <-!app_assoc.
    - by rewrite lookup_insert_eq.
    - done.
    - by apply fresh_not_live.
    - intros b Hb. rewrite lookup_insert_ne; [by apply Hlive|].
      intros <-. by apply (fresh_not_live w bs).
    - lia. }
  split; [by apply Hrun|].
  apply (Hrun []); [cbn; lia|constructor|]. intros b Hb. by apply elem_of_nil in Hb.
Qed.

Lemma MakeRefArray_refused (serves : allocator) (n : Z) (w : world) :
  0 ≤ n ≤ INT_MAX →
  serves (heap w) (sizeof_char_p * n) = false →
  MakeRefArray serves n w =
    Ok NULL {| heap := heap w; calls := calls w ++ [Call_calloc sizeof_char_p n] |}.
Proof.
  intros Hn Hrefused. unfold MakeRefArray, calloc. rewrite to_size_t_int by done.
  rewrite run_bind. cbn [log heap calls].
  rewrite decide_True by (unfold INT_MAX, SIZE_MAX, sizeof_char_p in *; lia).
  by rewrite Hrefused.
Qed.

(** C7, as the code has it.  For every count [N ≥ 0]: when the system
    serves the request, [MakeRefArray N] returns the base of a block that
    was not allocated before, holding exactly [N] pointer slots, every one
    of them null; when it does not, [MakeRefArray N] returns the null
    pointer and allocates nothing. *)
Theorem MakeRefArray_zeroed (serves : allocator) (w : world) (N : Z) :
  0 ≤ N ≤ INT_MAX →
  (serves (heap w) (sizeof_char_p * N) = true →
   ∃ (rb : block) (w' : world),
     MakeRefArray serves N w = Ok (base rb) w' ∧
     heap w !! rb = None ∧
     heap w' = <[rb := PtrArray (replicate (Z.to_nat N) NULL)]> (heap w) ∧
     Z.of_nat (slot_count w' (base rb)) = N ∧
     ∀ i, 0 ≤ i < N → load_slot (base rb) i w' = Ok NULL w')
  ∧ (serves (heap w) (sizeof_char_p * N) = false →
     MakeRefArray serves N w =
       Ok NULL {| heap := heap w;
                  calls := calls w ++ [Call_calloc sizeof_char_p N] |}).
Proof.
  intros HN. split; [|by apply MakeRefArray_refused].
  intros Hserved. eexists _, _. split; [by apply MakeRefArray_ok|].
  split; [apply fresh_block_free|]. split; [done|]. split.
  - unfold slot_count, base. cbn [heap].
    rewrite lookup_insert_eq, length_replicate. lia.
  - intros i Hi. replace i with (Z.of_nat (Z.to_nat i)) by lia.
    apply (load_slot_base _ (replicate (Z.to_nat N) NULL)).
    + cbn [heap]. by rewrite lookup_insert_eq.
    + apply lookup_replicate_2. lia.
Qed.

(** C8. When all [N] slots of an allocated array hold pointers (the bases
    of distinct live blocks) and none is null, the scan of [FreeRefArray]
    frees the [N] blocks and then reads slot [N], which is out of the bounds
    of the [N]-slot allocation: the run ends in undefined behaviour. *)
Theorem FreeRefArray_full_array_reads_past_end (serves : allocator) (w : world)
    (N : Z) (bs : list block) :
  0 ≤ N ≤ INT_MAX →
  serves (heap w) (sizeof_char_p * N) = true →
  Z.of_nat (length bs) = N →
  NoDup bs →
  (∀ b, b ∈ bs → is_Some (heap w !! b)) →
  let rb := fresh (dom (heap w)) in
  ref_array_lifecycle serves N (base <$> bs) w =
    Fault (Undefined (OutOfBounds rb N))
      {| heap := <[rb := PtrArray (base <$> bs)]> (without bs (heap w));
         calls := calls w ++ [Call_calloc sizeof_char_p N]
                    ++ (Call_free ∘ base <$> bs) |}.
Proof.
  intros HN Hserved HK Hnd Hlive rb.
  pose proof (make_and_append serves w N (base <$> bs) ltac:(lia) Hserved
                ltac:(rewrite length_fmap; lia)) as Hfill.
  cbn zeta in Hfill. rewrite length_fmap in Hfill.
  unfold ref_array_lifecycle.
  rewrite run_bind in Hfill. rewrite run_bind.
  destruct (MakeRefArray serves N w) as [r w1|f w1|]; [|done..].
  rewrite run_bind in Hfill. rewrite run_bind.
  destruct (append_all r 0 (base <$> bs) w1) as [[] w2|f w2|]; [|done..].
  injection Hfill as -> ->. fold rb.
  replace (Z.to_nat N - length bs)%nat with 0%nat by lia.
  cbn [replicate]. rewrite app_nil_r.
  rewrite (FreeRefArray_unterminated rb bs); cbn [heap].
  - unfold released. cbn [heap calls]. rewrite HK. f_equal. f_equal.
    + by rewrite without_insert by (by apply fresh_not_live).
    + by rewrite <-app_assoc.
  - by rewrite lookup_insert_eq.
  - done.
  - by apply fresh_not_live.
  - intros b Hb. rewrite lookup_insert_ne; [by apply Hlive|].
    intros <-. by apply (fresh_not_live w bs).
  - lia.
Qed.

(** C9. On a ref array and an index within its bounds, [AppendRef] stores
    the pointer at that slot and changes nothing else: the other slots read
    as before, the array keeps its size, the other blocks and the call log
    are untouched.  The index is not checked: out of the bounds the store is
    made all the same, which is undefined behaviour and not an error
    handed back to the caller. *)
Theorem AppendRef_stores_at_index (w : world) (rb : block) (slots : list ptr)
    (i : Z) (p : ptr) :
  heap w !! rb = Some (PtrArray slots) →
  (0 ≤ i < Z.of_nat (length slots) →
     ∃ w', AppendRef (base rb) i p w = Ok tt w' ∧
       heap w' = <[rb := PtrArray (<[Z.to_nat i := p]> slots)]> (heap w) ∧
       calls w' = calls w ∧
       load_slot (base rb) i w' = Ok p w' ∧
       (∀ j q, j ≠ i → load_slot (base rb) j w = Ok q w →
               load_slot (base rb) j w' = Ok q w') ∧
       slot_count w' (base rb) = slot_count w (base rb) ∧
       (∀ b, b ≠ rb → heap w' !! b = heap w !! b))
  ∧ (¬ (0 ≤ i < Z.of_nat (length slots)) →
     AppendRef (base rb) i p w = Fault (Undefined (OutOfBounds rb i)) w).
Proof.
  intros Hrb. split.
  - intros Hi. eexists. split.
    { replace i with (Z.of_nat (Z.to_nat i)) at 1 by lia.
      apply (AppendRef_ok rb slots); [done|lia]. }
    cbn [heap calls]. split; [done|]. split; [done|].
    assert (∀ j q, (<[Z.to_nat i := p]> slots) !! Z.to_nat j = Some q → 0 ≤ j →
              load_slot (base rb) j
                {| heap := <[rb := PtrArray (<[Z.to_nat i := p]> slots)]> (heap w);
                   calls := calls w |} =
              Ok q {| heap := <[rb := PtrArray (<[Z.to_nat i := p]> slots)]> (heap w);
                      calls := calls w |}) as Hload.
    { intros j q Hj Hpos. replace j with (Z.of_nat (Z.to_nat j)) at 1 by lia.
      apply (load_slot_base rb (<[Z.to_nat i := p]> slots)); [|done].
      cbn [heap]. by rewrite lookup_insert_eq. }
    split; [|split; [|split]].
    + apply Hload; [|lia]. apply list_lookup_insert_eq. lia.
    + intros j q Hne Hj. apply load_slot_inv in Hj as Hj'.
      destruct Hj' as [_ Hj']. cbn [offset_of base] in Hj'.
      apply Hload; [|lia].
      rewrite list_lookup_insert_ne by lia.
      revert Hj. unfold load_slot, base. rewrite Hrb, Z.add_0_l.
      rewrite decide_True by lia.
      destruct (slots !! Z.to_nat j); [|done]. by intros [= ->].
    + unfold slot_count, base. cbn [heap].
      by rewrite lookup_insert_eq, Hrb, length_insert.
    + intros b Hb. by rewrite lookup_insert_ne.
  - intros Hi. unfold AppendRef, store_slot, base. rewrite Hrb, Z.add_0_l.
    by rewrite decide_False.
Qed.

(** [g_variant_builder_add_refs] on a builder of entries ["{sv}"] and an
    array that starts with pointers to strings followed by a null slot:
    whatever the slots after it hold, one entry is added, made of the key
    ["refs"] and the boxed array with one child per string before the null
    slot. *)
Lemma g_variant_builder_add_refs_terminated (w : world) (bb rb : block)
    (children : list GVariant) (ps tail : list ptr) (ss : list string) :
  heap w !! bb = Some (BuilderObj "{sv}" children) →
  heap w !! rb = Some (PtrArray (ps ++ NULL :: tail)) →
  Forall2 (λ p s, read_string p w = Ok s w) ps ss →
  let strv := GArray "s" (string_child <$> ss) in
  let entry := GDictEntry (GString "refs") (GBoxed strv) in
  g_variant_builder_add_refs (base bb) (base rb) w =
    Ok tt {| heap := <[bb := BuilderObj "{sv}" (children ++ [entry])]> (heap w);
             calls := calls w ++
               [Call_g_variant_new_strv (base rb) (-1);
                Call_g_variant_new_variant (Some strv);
                Call_g_variant_builder_add (base bb) "{s@v}"
                  [VaPtr (StrLit "refs"); VaVariant (Some (GBoxed strv))]] |}.
Proof.
  intros Hbb Hrb Hss strv entry. unfold g_variant_builder_add_refs.
  rewrite (run_bind_ok _ _ _ _ _
             (g_variant_new_strv_terminated rb ps tail ss w Hrb Hss)).
  fold strv.
  rewrite (run_bind_ok _ _ _ _ _ (g_variant_new_variant_ok (Some strv) _)).
  cbn [fmap option_fmap option_map heap calls].
  rewrite g_variant_builder_add_unfold. cbn [heap calls].
  rewrite (run_bind_ok _ _ _ _ _
             (g_variant_new_va_entry (StrLit "refs") "refs" strv [] _
                (read_string_refs _))).
  rewrite (g_variant_builder_add_value_ok bb "{sv}" children) by done.
  cbn [heap calls]. fold entry. by rewrite <-!app_assoc.
Qed.

(** C10, as the code has it.  The first null slot is the end of the array
    for both readers.  With a null pointer in slot [i] and any pointers,
    null or not, in the slots after it: [FreeRefArray] frees the [i] blocks
    of the slots before it, then the array, and no other block;
    [g_variant_builder_add_refs] encodes the slots before it, in order, one
    child per slot, and none of the slots after it.  The child of a slot is
    its string when the string is valid UTF-8 and a null child when it is
    not; with valid strings the array reads back as the strings, with a
    string that is not valid it does not read back. *)
Theorem first_null_slot_ends_array (tail : list ptr) :
  (∀ (w : world) (rb : block) (bs : list block),
     heap w !! rb = Some (PtrArray ((base <$> bs) ++ NULL :: tail)) →
     NoDup bs →
     rb ∉ bs →
     (∀ b, b ∈ bs → is_Some (heap w !! b)) →
     Z.of_nat (length bs) ≤ INT_MAX →
     ∃ w', FreeRefArray (base rb) w = Ok tt w' ∧
       calls w' = calls w ++ (Call_free ∘ base <$> bs) ++ [Call_free (base rb)] ∧
       heap w' = delete rb (without bs (heap w)) ∧
       ∀ b, b ∉ bs → b ≠ rb → heap w' !! b = heap w !! b)
  ∧ (∀ (w : world) (bb rb : block) (children : list GVariant)
       (ps : list ptr) (ss : list string),
     heap w !! bb = Some (BuilderObj "{sv}" children) →
     heap w !! rb = Some (PtrArray (ps ++ NULL :: tail)) →
     Forall2 (λ p s, read_string p w = Ok s w) ps ss →
     ∃ w' strv, g_variant_builder_add_refs (base bb) (base rb) w = Ok tt w' ∧
       heap w' = <[bb := BuilderObj "{sv}"
                     (children ++ [GDictEntry (GString "refs") (GBoxed strv)])]> (heap w) ∧
       strv = GArray "s" (string_child <$> ss) ∧
       (Forall (λ s, g_utf8_validate s = true) ss →
        g_variant_get_strv strv = Some ss) ∧
       (∀ s, s ∈ ss → g_utf8_validate s = false →
        g_variant_get_strv strv = None)).
Proof.
  split.
  - intros w rb bs Hrb Hnd Hnin Hlive Hmax. eexists. split.
    { by apply (FreeRefArray_terminated rb bs tail). }
    unfold released. cbn [heap calls].
    rewrite fmap_app, without_snoc. split; [done|]. split; [done|].
    intros b Hb Hne. rewrite lookup_delete_ne by done.
    by apply lookup_without_notin.
  - intros w bb rb children ps ss Hbb Hrb Hss. eexists _, _. split.
    { by apply (g_variant_builder_add_refs_terminated w bb rb children ps tail ss). }
    cbn [heap]. split; [done|]. split; [done|].
    split; [apply g_variant_get_strv_strings|apply g_variant_get_strv_invalid].
Qed.

(** C2, as the code has it.  On a null-terminated ref array whose non-null
    entries are a prefix of it, [g_variant_builder_add_refs] adds exactly
    one entry to the builder; its key is the string ["refs"] and its value
    is a boxed array with one child per string of the array, in order.
    When the strings are valid UTF-8 the array reads back as the strings,
    unchanged; a string that is not valid UTF-8 is a null child, and the
    array then does not read back. *)
Theorem g_variant_builder_add_refs_entry (w : world) (bb rb : block)
    (children : list GVariant) (ps : list ptr) (ss : list string) (n : nat) :
  heap w !! bb = Some (BuilderObj "{sv}" children) →
  heap w !! rb = Some (PtrArray (ps ++ replicate (S n) NULL)) →
  Forall2 (λ p s, read_string p w = Ok s w) ps ss →
  ∃ w' entry boxed strv,
    g_variant_builder_add_refs (base bb) (base rb) w = Ok tt w' ∧
    heap w' = <[bb := BuilderObj "{sv}" (children ++ [entry])]> (heap w) ∧
    decode_entry entry = Some ("refs", boxed) ∧
    g_variant_get_variant boxed = Some strv ∧
    strv = GArray "s" (string_child <$> ss) ∧
    (Forall (λ s, g_utf8_validate s = true) ss →
     g_variant_get_strv strv = Some ss) ∧
    (∀ s, s ∈ ss → g_utf8_validate s = false →
     g_variant_get_strv strv = None).
Proof.
  intros Hbb Hrb Hss. eexists _, _, _, _. split.
  { by apply (g_variant_builder_add_refs_terminated w bb rb children ps
                (replicate n NULL) ss). }
  cbn [heap]. split; [done|]. split; [done|]. split; [done|]. split; [done|].
  split; [apply g_variant_get_strv_strings|apply g_variant_get_strv_invalid].
Qed.

(** ** Error-message accessor *)

(** C3. On a pointer to an error object, [_g_error_get_message] returns the
    pointer held in the [message] field, that very pointer, and the world
    is left as it was: nothing is allocated, freed or written, no call is
    made, and the error object is unchanged. *)
Theorem g_error_get_message_returns_field (w : world) (b : block)
    (domain code : Z) (message : ptr) :
  heap w !! b = Some (ErrorObj domain code message) →
  _g_error_get_message (base b) w = Ok message w.
Proof.
  intros Hb. unfold _g_error_get_message, g_assert, load_message, base.
  rewrite bool_decide_true by done. rewrite run_bind. cbn [mret M_ret ret].
  by rewrite Hb.
Qed.

(** C4. On the null pointer [_g_error_get_message] stops at the failed
    assertion [error != NULL], which aborts the program: no value is
    returned.  On any other pointer the assertion does not fail. *)
Theorem g_error_get_message_asserts_non_null :
  (∀ w, _g_error_get_message NULL w = Fault (AssertionFailed "error != NULL") w)
  ∧ (∀ error w expr w',
       error ≠ NULL →
       _g_error_get_message error w ≠ Fault (AssertionFailed expr) w').
Proof.
  split; [done|].
  intros error w expr w' Hnn. unfold _g_error_get_message, g_assert.
  rewrite bool_decide_true by done. rewrite run_bind. cbn [mret M_ret ret].
  unfold load_message.
  destruct error as [|b ofs|lit]; [done| |done].
  destruct (heap w !! b) as [[]|]; try done.
  by case_decide.
Qed.

(** ** Variant-builder append helpers *)

(** C5. [g_variant_builder_add_variant] is the call
    [g_variant_builder_add (builder, "{s@v}", key, value)] and
    [g_variant_builder_add_string_tuple] is the call
    [g_variant_builder_add (builder, "(ss)", key, value)]: for every
    builder, key and value, and whether the library accepts them or not,
    the helper behaves as that call and that call is the one and only
    call it makes. *)
Theorem add_helpers_forward_one_call (builder key : ptr) (value : GVariant_p)
    (string_value : ptr) (w : world) :
  g_variant_builder_add_variant builder key value w =
    g_variant_builder_add builder "{s@v}" [VaPtr key; VaVariant value] w
  ∧ calls <$> final_world (g_variant_builder_add_variant builder key value w) =
    Some (calls w ++
            [Call_g_variant_builder_add builder "{s@v}" [VaPtr key; VaVariant value]])
  ∧ g_variant_builder_add_string_tuple builder key string_value w =
    g_variant_builder_add builder "(ss)" [VaPtr key; VaPtr string_value] w
  ∧ calls <$> final_world (g_variant_builder_add_string_tuple builder key string_value w) =
    Some (calls w ++
            [Call_g_variant_builder_add builder "(ss)" [VaPtr key; VaPtr string_value]]).
Proof.
  split; [done|]. split; [apply g_variant_builder_add_calls|].
  split; [done|]. apply g_variant_builder_add_calls.
Qed.

(** C6, as the code has it.  What the helpers build reads back as what
    they were given, when the strings are valid UTF-8.  The entry
    [g_variant_builder_add_string_tuple] adds for the strings at [key] and
    [value] is a tuple that decodes to these two strings; the entry
    [g_variant_builder_add_variant] adds for the string at [key] and a
    tagged value decodes to this string and this value.  A string that is
    not valid UTF-8 reads back as ["[Invalid UTF-8]"]; the tagged value is
    never changed. *)
Theorem add_helpers_round_trip (w : world) (bb : block)
    (children : list GVariant) (key : ptr) (k : string) :
  read_string key w = Ok k w →
  (∀ (value : ptr) (v : string),
     heap w !! bb = Some (BuilderObj "(ss)" children) →
     read_string value w = Ok v w →
     ∃ w' entry,
       g_variant_builder_add_string_tuple (base bb) key value w = Ok tt w' ∧
       heap w' = <[bb := BuilderObj "(ss)" (children ++ [entry])]> (heap w) ∧
       decode_string_tuple entry = Some (as_text k, as_text v) ∧
       (g_utf8_validate k = true → g_utf8_validate v = true →
        decode_string_tuple entry = Some (k, v)))
  ∧ (∀ (x : GVariant),
     heap w !! bb = Some (BuilderObj "{sv}" children) →
     ∃ w' entry,
       g_variant_builder_add_variant (base bb) key (Some (GBoxed x)) w = Ok tt w' ∧
       heap w' = <[bb := BuilderObj "{sv}" (children ++ [entry])]> (heap w) ∧
       decode_entry entry = Some (as_text k, GBoxed x) ∧
       (g_utf8_validate k = true → decode_entry entry = Some (k, GBoxed x))).
Proof.
  intros Hk. split.
  - intros value v Hbb Hv. eexists _, _. split.
    { unfold g_variant_builder_add_string_tuple.
      rewrite g_variant_builder_add_unfold.
      set (w1 := {| heap := heap w; calls := _ |}).
      rewrite (run_bind_ok _ _ _ _ _
                 (g_variant_new_va_string_tuple key value k v [] w1
                    (read_string_heap _ _ w w1 eq_refl Hk)
                    (read_string_heap _ _ w w1 eq_refl Hv))).
      by apply (g_variant_builder_add_value_ok bb "(ss)" children). }
    split; [done|]. split; [done|].
    intros Hvk Hvv. cbn [decode_string_tuple]. by rewrite !as_text_valid.
  - intros x Hbb. eexists _, _. split.
    { unfold g_variant_builder_add_variant.
      rewrite g_variant_builder_add_unfold.
      set (w1 := {| heap := heap w; calls := _ |}).
      rewrite (run_bind_ok _ _ _ _ _
                 (g_variant_new_va_entry key k x [] w1
                    (read_string_heap _ _ w w1 eq_refl Hk))).
      by apply (g_variant_builder_add_value_ok bb "{sv}" children). }
    split; [done|]. split; [done|].
    intros Hvk. cbn [decode_entry]. by rewrite as_text_valid.
Qed.

(** * The properties on the sample world *)

Ltac sample_blocks H :=
  apply list_elem_of_In in H; cbn in H;
  repeat (destruct H as [<-|H]; [by eexists|]); destruct H.

Ltac sample_decide := apply (bool_decide_unpack _); vm_compute; exact I.

Lemma ref_array_lifecycle_frees_populated_witness :
  ref_array_lifecycle sample_allocator 3 [base 1%positive; base 2%positive]
    sample_world =
    Ok tt {| heap := without [1%positive; 2%positive] (heap sample_world);
             calls := [Call_calloc 8 3; Call_free (base 1%positive);
                       Call_free (base 2%positive); Call_free (base 9%positive)] |}.
Proof.
  apply (ref_array_lifecycle_frees_populated sample_allocator sample_world 3
           [1%positive; 2%positive]).
  - unfold INT_MAX. lia.
  - reflexivity.
  - cbn. lia.
  - sample_decide.
  - intros b Hb. sample_blocks Hb.
Defined.

(** On a system that serves at most 8 GiB, the array of [INT_MAX] slots is
    not allocated: [MakeRefArray] returns the null pointer. *)
Lemma MakeRefArray_zeroed_counterexample :
  MakeRefArray sample_allocator 2147483647 sample_world =
    Ok NULL {| heap := heap sample_world;
               calls := [Call_calloc 8 2147483647] |}
  ∧ ¬ ∃ (rb : block) (w' : world),
        MakeRefArray sample_allocator 2147483647 sample_world = Ok (base rb) w'.
Proof.
  assert (MakeRefArray sample_allocator 2147483647 sample_world =
            Ok NULL {| heap := heap sample_world;
                       calls := [Call_calloc 8 2147483647] |}) as Hnull
    by (vm_compute; reflexivity).
  split; [done|]. intros (rb & w' & Hrun).
  rewrite Hnull in Hrun. unfold base in Hrun. discriminate.
Qed.

Lemma MakeRefArray_zeroed_witness :
  (∃ (rb : block) (w' : world),
     MakeRefArray sample_allocator 3 sample_world = Ok (base rb) w' ∧
     heap sample_world !! rb = None ∧
     heap w' = <[rb := PtrArray (replicate (Z.to_nat 3) NULL)]> (heap sample_world) ∧
     Z.of_nat (slot_count w' (base rb)) = 3 ∧
     ∀ i, 0 ≤ i < 3 → load_slot (base rb) i w' = Ok NULL w')
  ∧ MakeRefArray sample_allocator INT_MAX sample_world =
      Ok NULL {| heap := heap sample_world;
                 calls := [Call_calloc sizeof_char_p INT_MAX] |}.
Proof.
  split.
  - destruct (MakeRefArray_zeroed sample_allocator sample_world 3) as [Hserved _];
      [unfold INT_MAX; lia|].
    by apply Hserved.
  - destruct (MakeRefArray_zeroed sample_allocator sample_world INT_MAX)
      as [_ Hrefused]; [unfold INT_MAX; lia|].
    by apply Hrefused.
Defined.

Lemma FreeRefArray_full_array_reads_past_end_witness :
  ref_array_lifecycle sample_allocator 2 [base 1%positive; base 2%positive]
    sample_world =
    Fault (Undefined (OutOfBounds 9%positive 2))
      {| heap := <[9%positive := PtrArray [base 1%positive; base 2%positive]]>
                   (without [1%positive; 2%positive] (heap sample_world));
         calls := [Call_calloc 8 2; Call_free (base 1%positive);
                   Call_free (base 2%positive)] |}.
Proof.
  apply (FreeRefArray_full_array_reads_past_end sample_allocator sample_world 2
           [1%positive; 2%positive]).
  - unfold INT_MAX. lia.
  - reflexivity.
  - reflexivity.
  - sample_decide.
  - intros b Hb. sample_blocks Hb.
Defined.

Lemma AppendRef_stores_at_index_witness :
  (∃ w', AppendRef (base 8%positive) 2 (base 3%positive) sample_world = Ok tt w' ∧
     heap w' = <[8%positive := PtrArray [base 1%positive; base 2%positive;
                                         base 3%positive; NULL]]> (heap sample_world) ∧
     load_slot (base 8%positive) 2 w' = Ok (base 3%positive) w' ∧
     load_slot (base 8%positive) 1 w' = Ok (base 2%positive) w')
  ∧ AppendRef (base 8%positive) 4 (base 3%positive) sample_world =
      Fault (Undefined (OutOfBounds 8%positive 4)) sample_world.
Proof.
  destruct (AppendRef_stores_at_index sample_world 8%positive
              [base 1%positive; base 2%positive; NULL; NULL] 2 (base 3%positive)
              eq_refl) as [Hin _].
  destruct (AppendRef_stores_at_index sample_world 8%positive
              [base 1%positive; base 2%positive; NULL; NULL] 4 (base 3%positive)
              eq_refl) as [_ Hout].
  split.
  - destruct Hin as (w' & Hrun & Hheap & _ & Hload & Hothers & _); [cbn; lia|].
    exists w'. split; [done|]. split; [done|]. split; [done|].
    apply Hothers; [lia|]. reflexivity.
  - apply Hout. cbn. lia.
Defined.

(** With the Latin-1 name before the null slot, the array that
    [g_variant_builder_add_refs] adds has a null child where the name
    should be and does not read back as the strings before the null
    slot. *)
Lemma first_null_slot_ends_array_counterexample :
  read_string (base 9%positive) sample_world_latin1 =
    Ok latin1_name sample_world_latin1
  ∧ ∃ w', g_variant_builder_add_refs (base 4%positive) (base 11%positive)
            sample_world_latin1 = Ok tt w' ∧
      heap w' !! 4%positive =
        Some (BuilderObj "{sv}"
                [GDictEntry (GString "refs") (GBoxed (GArray "s" [None]))]) ∧
      g_variant_get_strv (GArray "s" [None]) ≠ Some [latin1_name].
Proof.
  split; [vm_compute; reflexivity|].
  eexists. split; [vm_compute; reflexivity|]. split; [vm_compute; reflexivity|].
  discriminate.
Qed.

Lemma first_null_slot_ends_array_witness :
  (∃ w', FreeRefArray (base 7%positive) sample_world = Ok tt w' ∧
     calls w' = [Call_free (base 1%positive); Call_free (base 2%positive);
                 Call_free (base 7%positive)] ∧
     heap w' !! 3%positive = Some (CharArray (nul_terminated "devel")))
  ∧ (∃ w' strv,
       g_variant_builder_add_refs (base 4%positive) (base 7%positive) sample_world = Ok tt w' ∧
       heap w' = <[4%positive := BuilderObj "{sv}"
                     [GDictEntry (GString "refs") (GBoxed strv)]]> (heap sample_world) ∧
       g_variant_get_strv strv = Some ["main"; "stable"]).
Proof.
  destruct (first_null_slot_ends_array [base 3%positive]) as [Hfree Hadd].
  split.
  - destruct (Hfree sample_world 7%positive [1%positive; 2%positive])
      as (w' & Hrun & Hcalls & _ & Hother).
    + reflexivity.
    + sample_decide.
    + sample_decide.
    + intros b Hb. sample_blocks Hb.
    + unfold INT_MAX. cbn. lia.
    + exists w'. split; [done|]. split; [done|].
      rewrite Hother; [reflexivity|sample_decide|discriminate].
  - destruct (Hadd sample_world 4%positive 7%positive []
                [base 1%positive; base 2%positive] ["main"; "stable"])
      as (w' & strv & Hrun & Hheap & _ & Hread & _).
    + reflexivity.
    + reflexivity.
    + by repeat constructor.
    + exists w', strv. split; [done|]. split; [done|].
      apply Hread. by repeat constructor.
Defined.

(** With the Latin-1 name in a null-terminated array, the entry
    [g_variant_builder_add_refs] adds holds an array with a null child: it
    does not read back as the strings of the array. *)
Lemma g_variant_builder_add_refs_entry_counterexample :
  read_string (base 9%positive) sample_world_latin1 =
    Ok latin1_name sample_world_latin1
  ∧ ∃ w', g_variant_builder_add_refs (base 4%positive) (base 10%positive)
            sample_world_latin1 = Ok tt w' ∧
      heap w' !! 4%positive =
        Some (BuilderObj "{sv}"
                [GDictEntry (GString "refs") (GBoxed (GArray "s" [None]))]) ∧
      decode_entry (GDictEntry (GString "refs") (GBoxed (GArray "s" [None]))) =
        Some ("refs", GBoxed (GArray "s" [None])) ∧
      g_variant_get_strv (GArray "s" [None]) = None.
Proof.
  split; [vm_compute; reflexivity|].
  eexists. split; [vm_compute; reflexivity|]. split; [vm_compute; reflexivity|].
  by split.
Qed.

Lemma g_variant_builder_add_refs_entry_witness :
  ∃ w' entry boxed strv,
    g_variant_builder_add_refs (base 4%positive) (base 8%positive) sample_world = Ok tt w' ∧
    heap w' = <[4%positive := BuilderObj "{sv}" ([] ++ [entry])]> (heap sample_world) ∧
    decode_entry entry = Some ("refs", boxed) ∧
    g_variant_get_variant boxed = Some strv ∧
    g_variant_get_strv strv = Some ["main"; "stable"].
Proof.
  destruct (g_variant_builder_add_refs_entry sample_world 4%positive 8%positive []
              [base 1%positive; base 2%positive] ["main"; "stable"] 1)
    as (w' & entry & boxed & strv & Hrun & Hheap & Hentry & Hboxed & _ & Hread & _).
  - reflexivity.
  - reflexivity.
  - by repeat constructor.
  - exists w', entry, boxed, strv. repeat (split; [done|]).
    apply Hread. by repeat constructor.
Defined.

Lemma g_error_get_message_returns_field_witness :
  _g_error_get_message (base 6%positive) sample_world = Ok (base 1%positive) sample_world.
Proof.
  apply (g_error_get_message_returns_field sample_world 6%positive 1 2 (base 1%positive)).
  reflexivity.
Defined.

Lemma g_error_get_message_asserts_non_null_witness :
  _g_error_get_message NULL sample_world =
    Fault (AssertionFailed "error != NULL") sample_world
  ∧ _g_error_get_message (base 6%positive) sample_world ≠
    Fault (AssertionFailed "error != NULL") sample_world.
Proof.
  destruct g_error_get_message_asserts_non_null as [Hnull Hother].
  split; [apply Hnull|]. apply Hother. discriminate.
Defined.

(** With the Latin-1 name as the key, the tuple and the entry that are
    added read back with the key ["[Invalid UTF-8]"], not with the name. *)
Lemma add_helpers_round_trip_counterexample :
  read_string (base 9%positive) sample_world_latin1 =
    Ok latin1_name sample_world_latin1
  ∧ (∃ w', g_variant_builder_add_string_tuple (base 5%positive) (base 9%positive)
             (base 2%positive) sample_world_latin1 = Ok tt w' ∧
       heap w' !! 5%positive =
         Some (BuilderObj "(ss)"
                 [GTuple [GString "[Invalid UTF-8]"; GString "stable"]]) ∧
       decode_string_tuple (GTuple [GString "[Invalid UTF-8]"; GString "stable"]) ≠
         Some (latin1_name, "stable"))
  ∧ (∃ w', g_variant_builder_add_variant (base 4%positive) (base 9%positive)
             (Some (GBoxed (GString "1"))) sample_world_latin1 = Ok tt w' ∧
       heap w' !! 4%positive =
         Some (BuilderObj "{sv}"
                 [GDictEntry (GString "[Invalid UTF-8]") (GBoxed (GString "1"))]) ∧
       decode_entry (GDictEntry (GString "[Invalid UTF-8]") (GBoxed (GString "1"))) ≠
         Some (latin1_name, GBoxed (GString "1"))).
Proof.
  split; [vm_compute; reflexivity|]. split.
  - eexists. split; [vm_compute; reflexivity|]. split; [vm_compute; reflexivity|].
    vm_compute. discriminate.
  - eexists. split; [vm_compute; reflexivity|]. split; [vm_compute; reflexivity|].
    vm_compute. discriminate.
Qed.

Lemma add_helpers_round_trip_witness :
  (∃ w' entry,
     g_variant_builder_add_string_tuple (base 5%positive) (StrLit "branch")
       (base 2%positive) sample_world = Ok tt w' ∧
     heap w' = <[5%positive := BuilderObj "(ss)" ([] ++ [entry])]> (heap sample_world) ∧
     decode_string_tuple entry = Some ("branch", "stable"))
  ∧ (∃ w' entry,
     g_variant_builder_add_variant (base 4%positive) (StrLit "depth")
       (Some (GBoxed (GString "1"))) sample_world = Ok tt w' ∧
     heap w' = <[4%positive := BuilderObj "{sv}" ([] ++ [entry])]> (heap sample_world) ∧
     decode_entry entry = Some ("depth", GBoxed (GString "1"))).
Proof.
  split.
  - destruct (add_helpers_round_trip sample_world 5%positive [] (StrLit "branch")
                "branch" eq_refl) as [Htuple _].
    destruct (Htuple (base 2%positive) "stable")
      as (w' & entry & Hrun & Hheap & _ & Hread); [reflexivity..|].
    exists w', entry. split; [done|]. split; [done|]. by apply Hread.
  - destruct (add_helpers_round_trip sample_world 4%positive [] (StrLit "depth")
                "depth" eq_refl) as [_ Hentry].
    destruct (Hentry (GString "1"))
      as (w' & entry & Hrun & Hheap & _ & Hread); [reflexivity|].
    exists w', entry. split; [done|]. split; [done|]. by apply Hread.
Defined.

(** ** Runs outside the contract *)

(** A negative count is a huge [size_t]: [calloc] returns null and the
    first [AppendRef] dereferences it. *)
Example MakeRefArray_negative :
  MakeRefArray sample_allocator (-1) sample_world =
    Ok NULL {| heap := heap sample_world;
               calls := [Call_calloc 8 18446744073709551615] |}.
Proof. vm_compute. reflexivity. Qed.

Example AppendRef_null_array :
  AppendRef NULL 0 (base 1%positive) sample_world =
    Fault (Undefined NullDereference) sample_world.
Proof. reflexivity. Qed.

(** The same pointer in two slots is freed twice. *)
Example FreeRefArray_double_free :
  final_world (ref_array_lifecycle sample_allocator 3
                 [base 1%positive; base 1%positive] sample_world)
    ≫= (λ w, Some (calls w)) =
    Some [Call_calloc 8 3; Call_free (base 1%positive); Call_free (base 1%positive)]
  ∧ ∃ w', ref_array_lifecycle sample_allocator 3
            [base 1%positive; base 1%positive] sample_world =
            Fault (Undefined (InvalidFree (base 1%positive))) w'.
Proof. split; [vm_compute; reflexivity|]. eexists. vm_compute. reflexivity. Qed.

(** A string literal in a slot is handed to [free]. *)
Example FreeRefArray_literal :
  ∃ w', ref_array_lifecycle sample_allocator 2 [StrLit "main"] sample_world =
          Fault (Undefined (InvalidFree (StrLit "main"))) w'.
Proof. eexists. vm_compute. reflexivity. Qed.

(** A value that is not a variant stops the program at the tag ["@v"]; a
    tuple of strings is turned down by a builder of dictionary entries,
    and the call returns with nothing added. *)
Example g_variant_builder_add_variant_untagged :
  ∃ what w', g_variant_builder_add_variant (base 4%positive) (StrLit "depth")
               (Some (GString "1")) sample_world = Fault (LibraryError what) w'.
Proof. eexists _, _. vm_compute. reflexivity. Qed.

Example g_variant_builder_add_string_tuple_wrong_builder :
  ∃ w', g_variant_builder_add_string_tuple (base 4%positive) (StrLit "branch")
          (base 2%positive) sample_world = Ok tt w'
        ∧ heap w' = heap sample_world.
Proof. eexists. split; vm_compute; reflexivity. Qed.

(** * Further properties *)

(** ** What [FreeRefArray] leaves of the heap *)

Lemma load_slot_inert (refs : ptr) (i : Z) : inert (load_slot refs i).
Proof.
  intros w. unfold load_slot.
  destruct refs as [|b ofs|lit]; [done| |done].
  destruct (heap w !! b) as [[slots| | |]|]; try done.
  case_decide; [|done]. by destruct (slots !! _).
Qed.

Lemma free_shrinks (p : ptr) (w w' : world) :
  final_world (free p w) = Some w' →
  calls w' = calls w ++ [Call_free p] ∧ heap w' ⊆ heap w.
Proof.
  unfold free. rewrite run_bind. cbn [log].
  destruct p as [|b ofs|lit]; cbn; [by intros [= <-]| |by intros [= <-]].
  case_decide; [|by intros [= <-]].
  destruct (heap w !! b); intros [= <-]; cbn; [|done].
  split; [done|]. apply delete_subseteq.
Qed.

Lemma FreeRefArray_loop_shrinks (fuel : nat) :
  ∀ (refs : ptr) (i : Z) (w w' : world),
    final_world (FreeRefArray_loop fuel refs i w) = Some w' →
    ∃ ps, calls w' = calls w ++ (Call_free <$> ps) ∧ heap w' ⊆ heap w.
Proof.
  induction fuel as [|fuel IH]; intros refs i w w'; [done|].
  cbn [FreeRefArray_loop]. rewrite run_bind.
  pose proof (load_slot_inert refs i w) as Hload.
  destruct (load_slot refs i w) as [p w1|f w1|]; [| |done];
    injection Hload as ->.
  2:{ intros [= <-]. exists []. by rewrite app_nil_r. }
  case_decide.
  { intros [= <-]. exists []. by rewrite app_nil_r. }
  rewrite run_bind.
  pose proof (load_slot_inert refs i w) as Hload.
  destruct (load_slot refs i w) as [q w1|f w1|]; [| |done];
    injection Hload as ->.
  2:{ intros [= <-]. exists []. by rewrite app_nil_r. }
  rewrite run_bind.
  pose proof (free_shrinks q w) as Hfree.
  destruct (free q w) as [[] w2|f w2|]; [| |done].
  2:{ intros [= <-]. destruct (Hfree w2 eq_refl) as [Hc Hh].
      exists [q]. by rewrite Hc. }
  destruct (Hfree w2 eq_refl) as [Hc Hh].
  rewrite run_bind. unfold int_incr. case_decide.
  - cbn. intros Hrest. apply IH in Hrest as (ps & Hc' & Hh').
    exists (q :: ps). split.
    + rewrite Hc', Hc. cbn. by rewrite <-app_assoc.
    + by etrans.
  - intros [= <-]. exists [q]. by rewrite Hc.
Qed.

(** X1. Whatever pointer [FreeRefArray] is given and however its run ends,
    it calls nothing but [free] and every block that is live afterwards was
    live before with the same content: it allocates nothing and writes
    nothing. *)
Theorem FreeRefArray_only_frees (refs : ptr) (w : world) :
  ∃ (w' : world) (ps : list ptr),
    final_world (FreeRefArray refs w) = Some w' ∧
    calls w' = calls w ++ (Call_free <$> ps) ∧
    heap w' ⊆ heap w.
Proof.
  pose proof (FreeRefArray_total refs w) as Htotal.
  destruct (FreeRefArray refs w) as [[] w'|f w'|] eqn:Hrun; [| |done];
    exists w'; revert Hrun; unfold FreeRefArray; rewrite run_bind;
    pose proof (FreeRefArray_loop_shrinks (S (slot_count w refs)) refs 0 w) as Hloop.
  - destruct (FreeRefArray_loop _ refs 0 w) as [[] w1|f w1|]; [|done..].
    destruct (Hloop w1 eq_refl) as (ps & Hc & Hh). intros Hfree.
    destruct (free_shrinks refs w1 w') as [Hc' Hh']; [by rewrite Hfree|].
    exists (ps ++ [refs]). split; [done|]. split.
    + by rewrite Hc', Hc, fmap_app, <-app_assoc.
    + by etrans.
  - destruct (FreeRefArray_loop _ refs 0 w) as [[] w1|f1 w1|]; [| |done].
    + destruct (Hloop w1 eq_refl) as (ps & Hc & Hh). intros Hfree.
      destruct (free_shrinks refs w1 w') as [Hc' Hh']; [by rewrite Hfree|].
      exists (ps ++ [refs]). split; [done|]. split.
      * by rewrite Hc', Hc, fmap_app, <-app_assoc.
      * by etrans.
    + intros [= <- <-]. destruct (Hloop w1 eq_refl) as (ps & Hc & Hh).
      by exists ps.
Qed.

(** ** The array after [FreeRefArray] *)

Lemma FreeRefArray_ok_inv (refs : ptr) (w w' : world) :
  FreeRefArray refs w = Ok tt w' →
  ∃ (rb : block) (w1 : world),
    refs = base rb ∧
    FreeRefArray_loop (S (slot_count w refs)) refs 0 w = Ok tt w1 ∧
    is_Some (heap w1 !! rb) ∧
    w' = {| heap := delete rb (heap w1); calls := calls w1 ++ [Call_free refs] |}.
Proof.
  unfold FreeRefArray. rewrite run_bind.
  destruct (FreeRefArray_loop _ refs 0 w) as [[] w1|f w1|] eqn:Hloop; [|done..].
  unfold free. rewrite run_bind. cbn [log].
  destruct refs as [|rb ofs|lit]; [|case_decide as Hofs|done].
  - exfalso. revert Hloop. cbn [FreeRefArray_loop]. by rewrite run_bind.
  - subst ofs. cbn [heap calls].
    destruct (heap w1 !! rb) as [o|] eqn:Hrb; [|done].
    intros [= <-]. exists rb, w1. by eauto.
  - done.
Qed.

(** X2. Once [FreeRefArray] has returned, the array is gone: a second
    [FreeRefArray] on the same pointer, and any [AppendRef] through it, is a
    use of a dangling pointer. *)
Theorem FreeRefArray_leaves_dangling (refs : ptr) (w w' : world) :
  FreeRefArray refs w = Ok tt w' →
  ∃ rb, refs = base rb ∧
    heap w' !! rb = None ∧
    FreeRefArray refs w' = Fault (Undefined (InvalidPointer refs)) w' ∧
    ∀ i p, AppendRef refs i p w' = Fault (Undefined (InvalidPointer refs)) w'.
Proof.
  intros Hrun. apply FreeRefArray_ok_inv in Hrun as (rb & w1 & -> & _ & _ & ->).
  exists rb. split; [done|].
  set (w' := {| heap := delete rb (heap w1); calls := _ |}).
  assert (heap w' !! rb = None) as Hgone by apply lookup_delete_eq.
  clearbody w'.
  split; [done|]. split.
  - unfold FreeRefArray. rewrite run_bind.
    unfold slot_count, base. rewrite Hgone.
    cbn [FreeRefArray_loop]. rewrite run_bind.
    unfold load_slot. by rewrite Hgone.
  - intros i p. unfold AppendRef, store_slot, base. by rewrite Hgone.
Qed.

(** ** A count that is not a size *)

Lemma to_size_t_negative (n : Z) :
  INT_MIN ≤ n < 0 → to_size_t n = SIZE_MAX + 1 + n.
Proof.
  intros Hn. unfold to_size_t.
  rewrite <-(Z.mod_add n 1 (SIZE_MAX + 1)) by (unfold SIZE_MAX; lia).
  rewrite Z.mod_small; unfold INT_MIN, SIZE_MAX in *; lia.
Qed.

(** X4. A negative count reaches [calloc] as a size beyond what [size_t]
    times the pointer size can hold: [MakeRefArray] returns the null pointer
    and allocates nothing.  The result is not examined: the lifecycle then
    dereferences null, at the first [AppendRef] or in [FreeRefArray], before
    anything is freed. *)
Theorem MakeRefArray_negative_count (serves : allocator) (w : world) (N : Z)
    (ps : list ptr) :
  INT_MIN ≤ N < 0 →
  let w1 := {| heap := heap w;
               calls := calls w ++ [Call_calloc sizeof_char_p (SIZE_MAX + 1 + N)] |} in
  MakeRefArray serves N w = Ok NULL w1 ∧
  ref_array_lifecycle serves N ps w = Fault (Undefined NullDereference) w1.
Proof.
  intros HN w1.
  assert (MakeRefArray serves N w = Ok NULL w1) as Hmake.
  { unfold MakeRefArray, calloc. rewrite to_size_t_negative by done.
    rewrite run_bind. cbn [log heap calls].
    by rewrite decide_False
      by (unfold INT_MIN, SIZE_MAX, sizeof_char_p in *; lia). }
  split; [done|].
  unfold ref_array_lifecycle. rewrite (run_bind_ok _ _ _ _ _ Hmake).
  destruct ps as [|p ps]; [done|].
  cbn [append_all]. by rewrite !run_bind.
Qed.

(** ** [AppendRef] on [AppendRef] *)

(** X5. A second [AppendRef] at the same index replaces the first, for any
    array pointer and index, in bounds or not: the pointer stored first is
    no longer in the array.  Two [AppendRef] at different indices within the
    bounds can be made in either order. *)
Theorem AppendRef_overwrites_and_commutes (refs : ptr) (i j : Z) (p q : ptr)
    (w : world) :
  (AppendRef refs i p;; AppendRef refs i q) w = AppendRef refs i q w
  ∧ ∀ rb slots,
      refs = base rb →
      heap w !! rb = Some (PtrArray slots) →
      0 ≤ i < Z.of_nat (length slots) →
      0 ≤ j < Z.of_nat (length slots) →
      i ≠ j →
      (AppendRef refs i p;; AppendRef refs j q) w =
        (AppendRef refs j q;; AppendRef refs i p) w.
Proof.
  split.
  - rewrite run_bind. unfold AppendRef, store_slot.
    destruct refs as [|b ofs|lit]; [done| |done].
    destruct (heap w !! b) as [[slots| | |]|] eqn:Hb; try done.
    case_decide as Hi; [|done]. cbn [heap calls].
    rewrite lookup_insert_eq, length_insert, decide_True by done.
    by rewrite insert_insert_eq, list_insert_insert_eq.
  - intros rb slots -> Hrb Hi Hj Hne.
    replace i with (Z.of_nat (Z.to_nat i)) by lia.
    replace j with (Z.of_nat (Z.to_nat j)) by lia.
    rewrite (run_bind_ok _ _ _ _ tt
               (AppendRef_ok rb slots (Z.to_nat i) p w Hrb ltac:(lia))).
    rewrite (run_bind_ok _ _ _ _ tt
               (AppendRef_ok rb slots (Z.to_nat j) q w Hrb ltac:(lia))).
    rewrite (AppendRef_ok rb (<[Z.to_nat i := p]> slots) (Z.to_nat j) q);
      [|cbn [heap]; by rewrite lookup_insert_eq|rewrite length_insert; lia].
    rewrite (AppendRef_ok rb (<[Z.to_nat j := q]> slots) (Z.to_nat i) p);
      [|cbn [heap]; by rewrite lookup_insert_eq|rewrite length_insert; lia].
    cbn [heap calls]. rewrite !insert_insert_eq.
    by rewrite list_insert_insert_ne by lia.
Qed.


(** ** What the builder helpers leave of the heap *)


















(** ** A list of string pairs *)

Lemma g_variant_builder_add_string_tuple_ok (w : world) (bb : block)
    (children : list GVariant) (key value : ptr) (k v : string) :
  heap w !! bb = Some (BuilderObj "(ss)" children) →
  read_string key w = Ok k w →
  read_string value w = Ok v w →
  g_variant_builder_add_string_tuple (base bb) key value w =
    Ok tt {| heap := <[bb := BuilderObj "(ss)"
                        (children ++ [GTuple [GString (as_text k); GString (as_text v)]])]>
                       (heap w);
             calls := calls w ++
               [Call_g_variant_builder_add (base bb) "(ss)" [VaPtr key; VaPtr value]] |}.
Proof.
  intros Hbb Hk Hv. unfold g_variant_builder_add_string_tuple.
  rewrite g_variant_builder_add_unfold.
  set (w1 := {| heap := heap w; calls := _ |}).
  rewrite (run_bind_ok _ _ _ _ _
             (g_variant_new_va_string_tuple key value k v [] w1
                (read_string_heap _ _ w w1 eq_refl Hk)
                (read_string_heap _ _ w w1 eq_refl Hv))).
  by apply (g_variant_builder_add_value_ok bb "(ss)" children).
Qed.

(** A string is read the same after a builder got a child. *)
Lemma read_string_builder_update (p : ptr) (s : string) (bb : block)
    (elem elem' : string) (children children' : list GVariant) (w w' : world) :
  heap w !! bb = Some (BuilderObj elem children) →
  heap w' = <[bb := BuilderObj elem' children']> (heap w) →
  read_string p w = Ok s w →
  read_string p w' = Ok s w'.
Proof.
  intros Hbb Hheap. unfold read_string. rewrite Hheap.
  destruct p as [|b ofs|lit]; [done|..].
  - destruct (decide (b = bb)) as [->|Hne]; [by rewrite Hbb|].
    rewrite lookup_insert_ne by done.
    destruct (heap w !! b) as [[]|]; try done.
    case_decide; [|done]. destruct (until_nul _); [|done]. by intros [= ->].
  - destruct (until_nul _); [|done]. by intros [= ->].
Qed.

Lemma as_text_pairs_valid (strings : list (string * string)) :
  Forall (λ kv, g_utf8_validate kv.1 = true ∧ g_utf8_validate kv.2 = true) strings →
  (λ kv, (as_text kv.1, as_text kv.2)) <$> strings = strings.
Proof.
  induction 1 as [|[k v] strings [Hk Hv] _ IH]; [done|].
  cbn [fst snd] in Hk, Hv. rewrite fmap_cons, IH. cbn [fst snd].
  by rewrite !as_text_valid.
Qed.

(** X12. Pairs of strings added one after the other with
    [g_variant_builder_add_string_tuple] become the last children of the
    builder in the order of the calls, one child per pair, with one library
    call per pair.  The children read back as the list of pairs when the
    strings are valid UTF-8; a string that is not reads back as
    ["[Invalid UTF-8]"]. *)
Theorem add_string_tuples_round_trip (pairs : list (ptr * ptr)) :
  ∀ (w : world) (bb : block) (children : list GVariant)
    (strings : list (string * string)),
    heap w !! bb = Some (BuilderObj "(ss)" children) →
    Forall2 (λ pq kv, read_string pq.1 w = Ok kv.1 w
                      ∧ read_string pq.2 w = Ok kv.2 w) pairs strings →
    ∃ w' entries,
      add_string_tuples (base bb) pairs w = Ok tt w' ∧
      heap w' = <[bb := BuilderObj "(ss)" (children ++ entries)]> (heap w) ∧
      mapM decode_string_tuple entries =
        Some ((λ kv, (as_text kv.1, as_text kv.2)) <$> strings) ∧
      (Forall (λ kv, g_utf8_validate kv.1 = true ∧ g_utf8_validate kv.2 = true)
         strings →
       mapM decode_string_tuple entries = Some strings) ∧
      calls w' = calls w ++
        ((λ pq, Call_g_variant_builder_add (base bb) "(ss)" [VaPtr pq.1; VaPtr pq.2])
           <$> pairs).
Proof.
  cut (∀ (w : world) (bb : block) (children : list GVariant)
         (strings : list (string * string)),
         heap w !! bb = Some (BuilderObj "(ss)" children) →
         Forall2 (λ pq kv, read_string pq.1 w = Ok kv.1 w
                           ∧ read_string pq.2 w = Ok kv.2 w) pairs strings →
         ∃ w' entries,
           add_string_tuples (base bb) pairs w = Ok tt w' ∧
           heap w' = <[bb := BuilderObj "(ss)" (children ++ entries)]> (heap w) ∧
           mapM decode_string_tuple entries =
             Some ((λ kv, (as_text kv.1, as_text kv.2)) <$> strings) ∧
           calls w' = calls w ++
             ((λ pq, Call_g_variant_builder_add (base bb) "(ss)"
                       [VaPtr pq.1; VaPtr pq.2]) <$> pairs)).
  { intros Hgen w bb children strings Hbb Hread.
    destruct (Hgen w bb children strings Hbb Hread)
      as (w' & entries & Hrun & Hheap & Hdec & Hcalls).
    exists w', entries. split; [done|]. split; [done|]. split; [done|].
    split; [|done]. intros Hvalid. by rewrite Hdec, as_text_pairs_valid. }
  induction pairs as [|[key value] pairs IH];
    intros w bb children strings Hbb Hread.
  - apply Forall2_nil_inv_l in Hread as ->. exists w, []. split; [done|].
    rewrite !app_nil_r. by rewrite insert_id.
  - apply Forall2_cons_inv_l in Hread as ([k v] & strings' & [Hk Hv] & Hrest & ->).
    cbn [fst snd] in Hk, Hv. cbn [add_string_tuples].
    rewrite (run_bind_ok _ _ _ _ tt
               (g_variant_builder_add_string_tuple_ok w bb children key value k v
                  Hbb Hk Hv)).
    set (w1 := {| heap := _; calls := _ |}).
    set (entry := GTuple [GString (as_text k); GString (as_text v)]) in *.
    destruct (IH w1 bb (children ++ [entry]) strings')
      as (w' & entries & Hrun & Hheap & Hdec & Hcalls).
    { unfold w1. cbn [heap]. by rewrite lookup_insert_eq. }
    { eapply Forall2_impl; [done|]. intros [p q] [a b] [Hp Hq]. cbn [fst snd] in *.
      split; by apply (read_string_builder_update _ _ bb "(ss)" "(ss)" children
                         (children ++ [entry]) w w1). }
    exists w', (entry :: entries).
    split; [done|]. split; [|split].
    + rewrite Hheap. unfold w1. cbn [heap].
      by rewrite insert_insert_eq, <-app_assoc.
    + rewrite fmap_cons. cbn -[as_text]. cbn -[as_text] in Hdec. by rewrite Hdec.
    + rewrite Hcalls. unfold w1. cbn [calls fst snd fmap list_fmap].
      by rewrite <-app_assoc.
Qed.

(** ** A slot that cannot be freed *)

Lemma free_invalid (p : ptr) (w : world) :
  p ≠ NULL →
  (∀ b, p = base b → heap w !! b = None) →
  free p w =
    Fault (Undefined (InvalidFree p))
      {| heap := heap w; calls := calls w ++ [Call_free p] |}.
Proof.
  intros Hnn Hdead. unfold free. rewrite run_bind. cbn [log].
  destruct p as [|b ofs|lit]; [done| |done].
  case_decide as Hofs; [|done]. subst ofs. cbn [heap].
  by rewrite (Hdead b eq_refl).
Qed.

(** X14. [FreeRefArray] hands every slot before the first null one to
    [free] as it is.  When, after pointers to distinct live blocks, a slot
    holds a pointer that [free] cannot take (one freed by an earlier slot,
    a string literal, a pointer into the middle of a block, a dangling
    pointer), the run ends in that invalid [free]: the earlier blocks are
    freed, the array is not. *)
Theorem FreeRefArray_invalid_slot (w : world) (rb : block) (bs : list block)
    (p : ptr) (tail : list ptr) :
  heap w !! rb = Some (PtrArray ((base <$> bs) ++ p :: tail)) →
  NoDup bs →
  rb ∉ bs →
  (∀ b, b ∈ bs → is_Some (heap w !! b)) →
  Z.of_nat (length bs) ≤ INT_MAX →
  p ≠ NULL →
  (∀ b, p = base b → b ∈ bs ∨ heap w !! b = None) →
  ∃ w', FreeRefArray (base rb) w = Fault (Undefined (InvalidFree p)) w' ∧
    calls w' = calls w ++ (Call_free ∘ base <$> bs) ++ [Call_free p] ∧
    heap w' = without bs (heap w) ∧
    heap w' !! rb = Some (PtrArray ((base <$> bs) ++ p :: tail)).
Proof.
  intros Hrb Hnd Hnin Hlive Hmax Hnn Hbad. eexists. split.
  { unfold FreeRefArray. rewrite run_bind.
    unfold slot_count, base. rewrite Hrb. fold (base rb).
    rewrite length_app, length_fmap. cbn [length].
    replace (S (length bs + S (length tail)))
      with (length bs + S (S (length tail)))%nat by lia.
    rewrite (FreeRefArray_loop_run bs _ rb [] (p :: tail) w) by done.
    cbn [length Nat.add].
    assert (heap (released bs w) !! rb
            = Some (PtrArray ((base <$> bs) ++ p :: tail))) as Hrb'
      by (by rewrite released_lookup_notin).
    assert (((base <$> bs) ++ p :: tail) !! length bs = Some p) as Hp.
    { rewrite lookup_app_r by (by rewrite length_fmap).
      by rewrite length_fmap, Nat.sub_diag. }
    assert (∀ b, p = base b → heap (released bs w) !! b = None) as Hdead.
    { intros b Hb. destruct (decide (b ∈ bs)); [by apply lookup_without_in|].
      rewrite released_lookup_notin by done.
      by destruct (Hbad b Hb). }
    cbn [FreeRefArray_loop].
    rewrite (run_bind_ok _ _ _ _ p (load_slot_base _ _ _ _ _ Hrb' Hp)).
    rewrite decide_False by done.
    rewrite (run_bind_ok _ _ _ _ p (load_slot_base _ _ _ _ _ Hrb' Hp)).
    by rewrite (run_bind_fault _ _ _ _ _ (free_invalid p (released bs w) Hnn Hdead)). }
  unfold released. cbn [heap calls].
  split; [by rewrite <-app_assoc|]. split; [done|].
  by rewrite lookup_without_notin.
Qed.

(** ** The further properties on the sample world *)

Lemma FreeRefArray_leaves_dangling_witness :
  ∃ w', FreeRefArray (base 8%positive) sample_world = Ok tt w' ∧
    heap w' !! 8%positive = None ∧
    FreeRefArray (base 8%positive) w' =
      Fault (Undefined (InvalidPointer (base 8%positive))) w' ∧
    AppendRef (base 8%positive) 0 (base 3%positive) w' =
      Fault (Undefined (InvalidPointer (base 8%positive))) w'.
Proof.
  pose (w' := released [1%positive; 2%positive; 8%positive] sample_world).
  assert (FreeRefArray (base 8%positive) sample_world = Ok tt w') as Hrun
    by (vm_compute; reflexivity).
  destruct (FreeRefArray_leaves_dangling (base 8%positive) sample_world w' Hrun)
    as (rb & Hrb & Hgone & Hfree & Happend).
  injection Hrb as <-.
  exists w'. split; [done|]. split; [done|]. split; [done|]. apply Happend.
Defined.

Lemma MakeRefArray_negative_count_witness :
  MakeRefArray sample_allocator (-1) sample_world =
    Ok NULL {| heap := heap sample_world;
               calls := [Call_calloc 8 18446744073709551615] |}
  ∧ ref_array_lifecycle sample_allocator (-1) [base 1%positive] sample_world =
    Fault (Undefined NullDereference)
      {| heap := heap sample_world;
         calls := [Call_calloc 8 18446744073709551615] |}.
Proof.
  apply (MakeRefArray_negative_count sample_allocator sample_world (-1)
           [base 1%positive]).
  unfold INT_MIN. lia.
Defined.

Lemma AppendRef_overwrites_and_commutes_witness :
  (AppendRef (base 8%positive) 2 (base 3%positive);;
   AppendRef (base 8%positive) 3 (base 1%positive)) sample_world =
  (AppendRef (base 8%positive) 3 (base 1%positive);;
   AppendRef (base 8%positive) 2 (base 3%positive)) sample_world.
Proof.
  destruct (AppendRef_overwrites_and_commutes (base 8%positive) 2 3
              (base 3%positive) (base 1%positive) sample_world) as [_ Hcomm].
  apply (Hcomm 8%positive [base 1%positive; base 2%positive; NULL; NULL]).
  - reflexivity.
  - reflexivity.
  - cbn. lia.
  - cbn. lia.
  - lia.
Defined.


Lemma add_string_tuples_round_trip_witness :
  ∃ w' entries,
    add_string_tuples (base 5%positive)
      [(StrLit "branch", base 2%positive); (base 1%positive, StrLit "x")]
      sample_world = Ok tt w' ∧
    heap w' = <[5%positive := BuilderObj "(ss)" ([] ++ entries)]> (heap sample_world) ∧
    mapM decode_string_tuple entries = Some [("branch", "stable"); ("main", "x")] ∧
    calls w' =
      [Call_g_variant_builder_add (base 5%positive) "(ss)"
         [VaPtr (StrLit "branch"); VaPtr (base 2%positive)];
       Call_g_variant_builder_add (base 5%positive) "(ss)"
         [VaPtr (base 1%positive); VaPtr (StrLit "x")]].
Proof.
  destruct (add_string_tuples_round_trip
              [(StrLit "branch", base 2%positive); (base 1%positive, StrLit "x")]
              sample_world 5%positive []
              [("branch", "stable"); ("main", "x")])
    as (w' & entries & Hrun & Hheap & _ & Hread & Hcalls).
  - reflexivity.
  - by repeat constructor.
  - exists w', entries. split; [done|]. split; [done|]. split; [|done].
    apply Hread. by repeat constructor.
Defined.

Lemma FreeRefArray_invalid_slot_witness :
  ∃ w', FreeRefArray (base 9%positive)
          {| heap := <[9%positive := PtrArray [base 1%positive; base 1%positive; NULL]]>
                       (heap sample_world);
             calls := [] |} =
        Fault (Undefined (InvalidFree (base 1%positive))) w' ∧
    calls w' = [Call_free (base 1%positive); Call_free (base 1%positive)] ∧
    heap w' !! 9%positive = Some (PtrArray [base 1%positive; base 1%positive; NULL]).
Proof.
  destruct (FreeRefArray_invalid_slot
              {| heap := <[9%positive := PtrArray [base 1%positive; base 1%positive; NULL]]>
                           (heap sample_world);
                 calls := [] |}
              9%positive [1%positive] (base 1%positive) [NULL])
    as (w' & Hrun & Hcalls & _ & Harray).
  - reflexivity.
  - sample_decide.
  - sample_decide.
  - intros b Hb. sample_blocks Hb.
  - unfold INT_MAX. cbn. lia.
  - discriminate.
  - intros b [= <-]. left. sample_decide.
  - by exists w'.
Defined.
